(** * DALI's lookahead JSON parser (dali/pipeline/util/lookahead_parser.h)

    A shallow embedding of [LookaheadParserHandler] and [LookaheadParser]:
    the one-token lookahead adapter over rapidjson's iterative (SAX) reader.

    Layout of the file:
    - the data model ([LookaheadParsingState], rapidjson's [Value] and [Type]);
    - the Event Source interface ([EventSource]) and the handler callbacks;
    - [ParseNext] and the navigation operations, one definition per method;
    - calls as data ([Op], [call], [run]), the streams a reader delivers
      ([delivers]), JSON values and their events ([Json], [events]);
    - two scripted Event Sources and the parsers of the scenarios;
    - the lemmas and the theorems about the state machine, and the
      scenarios run on the scripted source.

    Stateful methods are functions from the parser to a result and the
    parser they leave.  The reader is a parameter: the theorems hold for
    every [EventSource]. *)

From Stdlib Require Import ZArith List String Bool Lia Floats.
Import ListNotations.
Open Scope Z_scope.

(** ** Data model *)

(** [enum LookaheadParsingState], in declaration order. *)
Inductive LookaheadParsingState : Type :=
| kInit
| kError
| kHasNull
| kHasBool
| kHasNumber
| kHasString
| kHasKey
| kEnteringObject
| kExitingObject
| kEnteringArray
| kExitingArray.

(** The integer value of an enumerator: the code compares states with
    [==], [!=], [>=] and [<=]. *)
Definition state_index (s : LookaheadParsingState) : Z :=
  match s with
  | kInit => 0
  | kError => 1
  | kHasNull => 2
  | kHasBool => 3
  | kHasNumber => 4
  | kHasString => 5
  | kHasKey => 6
  | kEnteringObject => 7
  | kExitingObject => 8
  | kEnteringArray => 9
  | kExitingArray => 10
  end.

Definition state_eqb (a b : LookaheadParsingState) : bool :=
  state_index a =? state_index b.

Definition state_leb (a b : LookaheadParsingState) : bool :=
  state_index a <=? state_index b.

Declare Scope state_scope.
Delimit Scope state_scope with st.
Infix "==" := state_eqb (at level 70, no associativity) : state_scope.
Notation "a != b" := (negb (state_eqb a b))
  (at level 70, no associativity) : state_scope.
Infix "<=" := state_leb : state_scope.
Notation "a >= b" := (state_leb b a) : state_scope.

(** Modelled from the spec: [rapidjson::Type], which the sources only use
    through [kArrayType], [kObjectType] and [Value::GetType]; the tags are
    rapidjson's and all of them are non-negative, so [-1] is none of them. *)
Inductive Type_ : Type :=
| kNullType
| kFalseType
| kTrueType
| kObjectType
| kArrayType
| kStringType
| kNumberType.

Definition Type_to_int (t : Type_) : Z :=
  match t with
  | kNullType => 0
  | kFalseType => 1
  | kTrueType => 2
  | kObjectType => 3
  | kArrayType => 4
  | kStringType => 5
  | kNumberType => 6
  end.

Definition INT_MIN : Z := - 2 ^ 31.
Definition INT_MAX : Z := 2 ^ 31 - 1.

(** [static_cast<double>] of an integer: IEEE 754 binary64, round to nearest
    even (exact for every 32-bit integer). *)
Definition Z2double (z : Z) : float :=
  SF2Prim (binary_normalize 53 1024 z 0 false).

(** Modelled from the spec: the numeric payload of [rapidjson::Value]
    ("numeric, supporting integer and floating representations").  The
    constructor records which setter stored the number. *)
Inductive Number : Type :=
| NInt (i : Z)
| NUint (u : Z)
| NInt64 (i : Z)
| NUint64 (u : Z)
| NDouble (d : float).

(** Modelled from the spec: [rapidjson::Value], the tagged scalar payload
    [v_] (null, boolean, number, string slice).  A default-constructed
    [Value] is null. *)
Inductive Value : Type :=
| VNull
| VBool (b : bool)
| VNumber (n : Number)
| VString (s : string).

Definition number_integer (n : Number) : option Z :=
  match n with
  | NInt i | NUint i | NInt64 i | NUint64 i => Some i
  | NDouble _ => None
  end.

(** Modelled from the spec: [Value::IsInt], "the buffered number is
    representable as a native integer": an integer representation whose
    value lies in the range of [int]; never a floating-point one. *)
Definition Value_IsInt (v : Value) : bool :=
  match v with
  | VNumber n =>
      match number_integer n with
      | Some z => (INT_MIN <=? z) && (z <=? INT_MAX)
      | None => false
      end
  | _ => false
  end.

(** The getters of [Value].  The sources call each of them only in a state
    whose token has the matching kind (see [coherent] below); the default
    branches stand for rapidjson's failed assertion and are never taken on
    a reachable parser. *)
Definition Value_GetInt (v : Value) : Z :=
  match v with
  | VNumber n => match number_integer n with Some z => z | None => 0 end
  | _ => 0
  end.

(** Modelled from the spec: [Value::GetDouble] "widens integers to
    floating-point" and returns a stored double as it is. *)
Definition Value_GetDouble (v : Value) : float :=
  match v with
  | VNumber (NDouble d) => d
  | VNumber n => match number_integer n with Some z => Z2double z | None => 0%float end
  | _ => 0%float
  end.

Definition Value_GetBool (v : Value) : bool :=
  match v with
  | VBool b => b
  | _ => false
  end.

Definition Value_GetString (v : Value) : string :=
  match v with
  | VString s => s
  | _ => EmptyString
  end.

Definition Value_GetType (v : Value) : Type_ :=
  match v with
  | VNull => kNullType
  | VBool true => kTrueType
  | VBool false => kFalseType
  | VNumber _ => kNumberType
  | VString _ => kStringType
  end.

(** ** The Event Source *)

(** The callbacks an Event Source may invoke on its handler, with their
    arguments.  A text of [length] characters at [str] is a [string]; the
    [copy] flag and the element counts are carried and ignored, as in the
    sources. *)
Inductive Event : Type :=
| EvNull
| EvBool (b : bool)
| EvInt (i : Z)
| EvUint (u : Z)
| EvInt64 (i : Z)
| EvUint64 (u : Z)
| EvDouble (d : float)
| EvRawNumber (str : string) (copy : bool)
| EvString (str : string) (copy : bool)
| EvStartObject
| EvKey (str : string) (copy : bool)
| EvEndObject (memberCount : Z)
| EvStartArray
| EvEndArray (elementCount : Z).

(** One call of [IterativeParseNext]: either the reader invokes one handler
    callback and goes on from the callback's answer ([k true] after an
    accepted event, [k false] after a rejected one), or it returns without
    calling the handler (a syntax error, or the end of the document). *)
Inductive ParseStep (R : Type) : Type :=
| Callback (e : Event) (k : bool -> R)
| NoCallback (r : R).

Arguments Callback {R} e k.
Arguments NoCallback {R} r.

(** Modelled from the spec: the Event Source ([rapidjson::Reader] together
    with the [InsituStringStream] it reads), which is not part of the
    sources.  Its contract is the one of the spec's external interfaces:
    [initialize()], [hasSyntaxError()] and [produceNextEvent(handler)],
    "invoking one of the handler callbacks synchronously before returning".
    [R] is the state of the reader and of its stream. *)
Class EventSource (R : Type) : Type := {
  HasParseError : R -> bool;
  IterativeParseInit : R -> R;
  IterativeParseNext : R -> ParseStep R;
  IterativeParseInit_clears :
    forall r, HasParseError (IterativeParseInit r) = false
}.

(** ** LookaheadParserHandler *)

(** The members [v_], [st_], [r_] (with [ss_], the stream the reader
    consumes).  [fetches] is a ghost counter of the calls of [ParseNext]; it
    is not in the sources and never read by them. *)
Record LookaheadParserHandler (R : Type) : Type := mkHandler {
  v_ : Value;
  st_ : LookaheadParsingState;
  r_ : R;
  fetches : nat
}.

Arguments mkHandler {R} v_ st_ r_ fetches.
Arguments v_ {R} _.
Arguments st_ {R} _.
Arguments r_ {R} _.
Arguments fetches {R} _.

(** [class LookaheadParser : protected LookaheadParserHandler] adds no member. *)
Definition LookaheadParser (R : Type) : Type := LookaheadParserHandler R.

Definition set_st {R} (s : LookaheadParsingState) (p : LookaheadParserHandler R)
  : LookaheadParserHandler R :=
  mkHandler (v_ p) s (r_ p) (fetches p).

Definition set_v {R} (v : Value) (p : LookaheadParserHandler R)
  : LookaheadParserHandler R :=
  mkHandler v (st_ p) (r_ p) (fetches p).

Definition set_r {R} (r : R) (p : LookaheadParserHandler R)
  : LookaheadParserHandler R :=
  mkHandler (v_ p) (st_ p) r (fetches p).

Definition tick {R} (p : LookaheadParserHandler R) : LookaheadParserHandler R :=
  mkHandler (v_ p) (st_ p) (r_ p) (S (fetches p)).

(** The public callbacks of [LookaheadParserHandler]: each returns the
    [bool] the reader sees and the handler it leaves. *)
Module Handler.
Section Callbacks.
Context {R : Type}.
Local Abbreviation H := (LookaheadParserHandler R).

Definition Null (p : H) : bool * H :=
  (true, set_v VNull (set_st kHasNull p)).

Definition Bool (b : bool) (p : H) : bool * H :=
  (true, set_v (VBool b) (set_st kHasBool p)).

Definition Int (i : Z) (p : H) : bool * H :=
  (true, set_v (VNumber (NInt i)) (set_st kHasNumber p)).

Definition Uint (u : Z) (p : H) : bool * H :=
  (true, set_v (VNumber (NUint u)) (set_st kHasNumber p)).

Definition Int64 (i : Z) (p : H) : bool * H :=
  (true, set_v (VNumber (NInt64 i)) (set_st kHasNumber p)).

Definition Uint64 (u : Z) (p : H) : bool * H :=
  (true, set_v (VNumber (NUint64 u)) (set_st kHasNumber p)).

Definition Double (d : float) (p : H) : bool * H :=
  (true, set_v (VNumber (NDouble d)) (set_st kHasNumber p)).

Definition RawNumber (str : string) (copy : bool) (p : H) : bool * H :=
  (false, p).

Definition String (str : string) (copy : bool) (p : H) : bool * H :=
  (true, set_v (VString str) (set_st kHasString p)).

Definition StartObject (p : H) : bool * H :=
  (true, set_st kEnteringObject p).

Definition Key (str : string) (copy : bool) (p : H) : bool * H :=
  (true, set_v (VString str) (set_st kHasKey p)).

Definition EndObject (memberCount : Z) (p : H) : bool * H :=
  (true, set_st kExitingObject p).

Definition StartArray (p : H) : bool * H :=
  (true, set_st kEnteringArray p).

Definition EndArray (elementCount : Z) (p : H) : bool * H :=
  (true, set_st kExitingArray p).

(** The reader's call of the callback that [e] names. *)
Definition dispatch (e : Event) (p : H) : bool * H :=
  match e with
  | EvNull => Null p
  | EvBool b => Bool b p
  | EvInt i => Int i p
  | EvUint u => Uint u p
  | EvInt64 i => Int64 i p
  | EvUint64 u => Uint64 u p
  | EvDouble d => Double d p
  | EvRawNumber str copy => RawNumber str copy p
  | EvString str copy => String str copy p
  | EvStartObject => StartObject p
  | EvKey str copy => Key str copy p
  | EvEndObject n => EndObject n p
  | EvStartArray => StartArray p
  | EvEndArray n => EndArray n p
  end.
End Callbacks.
End Handler.

(** ** ParseNext and the navigation operations *)

Section Parser.
Context {R : Type} {ES : EventSource R}.
Local Abbreviation LP := (LookaheadParser R).
Local Open Scope state_scope.

(** [void LookaheadParserHandler::ParseNext()], the "fetch".  The answer of
    [IterativeParseNext] is discarded, as in the sources. *)
Definition ParseNext (p : LP) : LP :=
  let p := tick p in
  if HasParseError (r_ p) then set_st kError p
  else
    match IterativeParseNext (r_ p) with
    | Callback e k =>
        let '(ok, p) := Handler.dispatch e p in
        set_r (k ok) p
    | NoCallback r' => set_r r' p
    end.

(** The constructor: [v_(), st_(kInit), r_(), ss_(str)], then
    [IterativeParseInit] and one [ParseNext].  [fresh] is the reader [r_()]
    over the stream [ss_(str)]. *)
Definition LookaheadParserHandler_new (fresh : R) : LP :=
  let p := mkHandler VNull kInit fresh 0%nat in
  let p := set_r (IterativeParseInit (r_ p)) p in
  ParseNext p.

Definition LookaheadParser_new (str : R) : LP :=
  LookaheadParserHandler_new str.

Definition IsValid (p : LP) : bool * LP :=
  (st_ p != kError, p).

Definition EnterObject (p : LP) : bool * LP :=
  if st_ p != kEnteringObject then
    let p := set_st kError p in
    (false, p)
  else
    let p := ParseNext p in
    (true, p).

Definition EnterArray (p : LP) : bool * LP :=
  if st_ p != kEnteringArray then
    let p := set_st kError p in
    (false, p)
  else
    let p := ParseNext p in
    (true, p).

(** A [const char*] result is an [option string]: [None] is the null
    pointer [0]. *)
Definition NextObjectKey (p : LP) : option string * LP :=
  if st_ p == kHasKey then
    let result := Value_GetString (v_ p) in
    let p := ParseNext p in
    (Some result, p)
  else if st_ p != kExitingObject then
    let p := set_st kError p in
    (None, p)
  else
    let p := ParseNext p in
    (None, p).

Definition NextArrayValue (p : LP) : bool * LP :=
  if st_ p == kExitingArray then
    let p := ParseNext p in
    (false, p)
  else if (st_ p == kError) || (st_ p == kExitingObject) || (st_ p == kHasKey) then
    let p := set_st kError p in
    (false, p)
  else
    (true, p).

Definition GetInt (p : LP) : Z * LP :=
  if (st_ p != kHasNumber) || negb (Value_IsInt (v_ p)) then
    let p := set_st kError p in
    (0, p)
  else
    let result := Value_GetInt (v_ p) in
    let p := ParseNext p in
    (result, p).

Definition GetDouble (p : LP) : float * LP :=
  if st_ p != kHasNumber then
    let p := set_st kError p in
    (0%float, p)
  else
    let result := Value_GetDouble (v_ p) in
    let p := ParseNext p in
    (result, p).

Definition GetBool (p : LP) : bool * LP :=
  if st_ p != kHasBool then
    let p := set_st kError p in
    (false, p)
  else
    let result := Value_GetBool (v_ p) in
    let p := ParseNext p in
    (result, p).

Definition GetNull (p : LP) : unit * LP :=
  if st_ p != kHasNull then
    let p := set_st kError p in
    (tt, p)
  else
    let p := ParseNext p in
    (tt, p).

Definition GetString (p : LP) : option string * LP :=
  if st_ p != kHasString then
    let p := set_st kError p in
    (None, p)
  else
    let result := Value_GetString (v_ p) in
    let p := ParseNext p in
    (Some result, p).

(** [void LookaheadParser::SkipOut(int depth)].  The [do ... while] loop
    need not terminate (a reader at the end of its document delivers
    nothing more), so the model takes [fuel], the number of iterations it
    may run, and answers [None] when they do not suffice.  [depth] is a [Z]:
    the [int] of the sources leaves its range only past 2^31 - 1 containers
    open at once. *)
Fixpoint SkipOut (fuel : nat) (depth : Z) (p : LP) : option LP :=
  match fuel with
  | O => None
  | S fuel' =>
      let '(depth, returns) :=
        if (st_ p == kEnteringArray) || (st_ p == kEnteringObject) then
          (depth + 1, false)
        else if (st_ p == kExitingArray) || (st_ p == kExitingObject) then
          (depth - 1, false)
        else if st_ p == kError then
          (depth, true)
        else
          (depth, false) in
      if returns then Some p
      else
        let p := ParseNext p in
        if depth >? 0 then SkipOut fuel' depth p else Some p
  end.

Definition SkipValue (fuel : nat) (p : LP) : option LP :=
  SkipOut fuel 0 p.

Definition SkipArray (fuel : nat) (p : LP) : option LP :=
  SkipOut fuel 1 p.

Definition SkipObject (fuel : nat) (p : LP) : option LP :=
  SkipOut fuel 1 p.

(** A [Value*] result is an [option Value]: the value [&v_] points to, or
    [None] for the null pointer. *)
Definition PeekValue (p : LP) : option Value * LP :=
  if (st_ p >= kHasNull) && (st_ p <= kHasKey) then
    (Some (v_ p), p)
  else
    (None, p).

Definition PeekType (p : LP) : Z * LP :=
  if (st_ p >= kHasNull) && (st_ p <= kHasKey) then
    (Type_to_int (Value_GetType (v_ p)), p)
  else if st_ p == kEnteringArray then
    (Type_to_int kArrayType, p)
  else if st_ p == kEnteringObject then
    (Type_to_int kObjectType, p)
  else
    (-1, p).

End Parser.

(** The states [kHasNull] to [kHasKey], which buffer a value. *)
Definition scalar_state (s : LookaheadParsingState) : bool :=
  match s with
  | kHasNull | kHasBool | kHasNumber | kHasString | kHasKey => true
  | _ => false
  end.

(** ** Calls as data *)

(** The public methods of [LookaheadParser], to speak of sequences of calls. *)
Inductive Op : Type :=
| OpEnterObject
| OpEnterArray
| OpNextObjectKey
| OpNextArrayValue
| OpGetInt
| OpGetDouble
| OpGetString
| OpGetBool
| OpGetNull
| OpSkipObject
| OpSkipArray
| OpSkipValue
| OpPeekValue
| OpPeekType
| OpIsValid.

(** What a call returns. *)
Inductive Ret : Type :=
| RetBool (b : bool)
| RetInt (i : Z)
| RetDouble (d : float)
| RetStr (s : option string)
| RetValue (v : option Value)
| RetVoid.

Definition is_peek (o : Op) : bool :=
  match o with
  | OpPeekValue | OpPeekType => true
  | _ => false
  end.

(** The value each method returns when it refuses to proceed. *)
Definition sentinel (o : Op) : Ret :=
  match o with
  | OpEnterObject | OpEnterArray | OpNextArrayValue | OpGetBool | OpIsValid =>
      RetBool false
  | OpNextObjectKey | OpGetString => RetStr None
  | OpGetInt => RetInt 0
  | OpGetDouble => RetDouble 0%float
  | OpGetNull | OpSkipObject | OpSkipArray | OpSkipValue => RetVoid
  | OpPeekValue => RetValue None
  | OpPeekType => RetInt (-1)
  end.

Section Calls.
Context {R : Type} {ES : EventSource R}.
Local Abbreviation LP := (LookaheadParser R).
Local Open Scope state_scope.

Definition returning {A : Type} (ret : A -> Ret) (res : A * LP) : option (Ret * LP) :=
  Some (ret (fst res), snd res).

Definition call (fuel : nat) (o : Op) (p : LP) : option (Ret * LP) :=
  match o with
  | OpEnterObject => returning RetBool (EnterObject p)
  | OpEnterArray => returning RetBool (EnterArray p)
  | OpNextObjectKey => returning RetStr (NextObjectKey p)
  | OpNextArrayValue => returning RetBool (NextArrayValue p)
  | OpGetInt => returning RetInt (GetInt p)
  | OpGetDouble => returning RetDouble (GetDouble p)
  | OpGetString => returning RetStr (GetString p)
  | OpGetBool => returning RetBool (GetBool p)
  | OpGetNull => returning (fun _ => RetVoid) (GetNull p)
  | OpSkipObject => option_map (pair RetVoid) (SkipObject fuel p)
  | OpSkipArray => option_map (pair RetVoid) (SkipArray fuel p)
  | OpSkipValue => option_map (pair RetVoid) (SkipValue fuel p)
  | OpPeekValue => returning RetValue (PeekValue p)
  | OpPeekType => returning RetInt (PeekType p)
  | OpIsValid => returning RetBool (IsValid p)
  end.

(** A sequence of calls, each on the parser the previous one left. *)
Fixpoint run (fuel : nat) (ops : list Op) (p : LP) : option (list Ret * LP) :=
  match ops with
  | [] => Some ([], p)
  | o :: ops' =>
      match call fuel o p with
      | None => None
      | Some (res, p') =>
          match run fuel ops' p' with
          | None => None
          | Some (rs, q) => Some (res :: rs, q)
          end
      end
  end.

(** The results of the calls of [ops] that are not peeks. *)
Fixpoint without_peeks (ops : list Op) (rs : list Ret) : list Ret :=
  match ops, rs with
  | o :: ops', res :: rs' =>
      if is_peek o then without_peeks ops' rs' else res :: without_peeks ops' rs'
  | _, _ => []
  end.

(** What a peek returns on [p]. *)
Definition peeked (o : Op) (p : LP) : Ret :=
  match o with
  | OpPeekType => RetInt (fst (PeekType p))
  | _ => RetValue (fst (PeekValue p))
  end.

(** The states in which the spec's table lets a method proceed; the methods
    that have no failing state are always allowed. *)
Definition precondition (o : Op) (p : LP) : bool :=
  match o with
  | OpEnterObject => st_ p == kEnteringObject
  | OpEnterArray => st_ p == kEnteringArray
  | OpNextObjectKey => (st_ p == kHasKey) || (st_ p == kExitingObject)
  | OpNextArrayValue =>
      negb ((st_ p == kError) || (st_ p == kExitingObject) || (st_ p == kHasKey))
  | OpGetInt => (st_ p == kHasNumber) && Value_IsInt (v_ p)
  | OpGetDouble => st_ p == kHasNumber
  | OpGetString => st_ p == kHasString
  | OpGetBool => st_ p == kHasBool
  | OpGetNull => st_ p == kHasNull
  | _ => true
  end.

(** ** What the reader delivers *)

(** The callback the next call of [IterativeParseNext] invokes, if any. *)
Definition emitted (r : R) : option Event :=
  match IterativeParseNext r with
  | Callback e _ => Some e
  | NoCallback _ => None
  end.

(** The reader after that call, when the handler accepts the event. *)
Definition after (r : R) : R :=
  match IterativeParseNext r with
  | Callback _ k => k true
  | NoCallback r' => r'
  end.

Definition is_raw (e : Event) : bool :=
  match e with
  | EvRawNumber _ _ => true
  | _ => false
  end.

(** The state a callback leaves ([RawNumber] leaves the one it finds). *)
Definition state_of (e : Event) (s : LookaheadParsingState) : LookaheadParsingState :=
  match e with
  | EvNull => kHasNull
  | EvBool _ => kHasBool
  | EvInt _ | EvUint _ | EvInt64 _ | EvUint64 _ | EvDouble _ => kHasNumber
  | EvRawNumber _ _ => s
  | EvString _ _ => kHasString
  | EvStartObject => kEnteringObject
  | EvKey _ _ => kHasKey
  | EvEndObject _ => kExitingObject
  | EvStartArray => kEnteringArray
  | EvEndArray _ => kExitingArray
  end.

(** The value a callback leaves in [v_]. *)
Definition value_of (e : Event) (v : Value) : Value :=
  match e with
  | EvNull => VNull
  | EvBool b => VBool b
  | EvInt i => VNumber (NInt i)
  | EvUint u => VNumber (NUint u)
  | EvInt64 i => VNumber (NInt64 i)
  | EvUint64 u => VNumber (NUint64 u)
  | EvDouble d => VNumber (NDouble d)
  | EvString s _ | EvKey s _ => VString s
  | _ => v
  end.

(** [delivers r es r']: from [r], the next calls of [IterativeParseNext]
    invoke the callbacks [es], one per call and without error, and leave the
    reader [r']. *)
Fixpoint delivers (r : R) (es : list Event) (r' : R) : Prop :=
  match es with
  | [] => r' = r
  | e :: es' =>
      HasParseError r = false /\ emitted r = Some e /\ is_raw e = false /\
      delivers (after r) es' r'
  end.

(** The state of the token that [e] announces. *)
Definition token_state (e : Event) : LookaheadParsingState := state_of e kInit.

(** [n] fetches in a row. *)
Definition fetch_n (n : nat) (p : LP) : LP := Nat.iter n ParseNext p.

(** The invariant between [st_] and [v_]: a scalar state buffers a value of
    its kind. *)
Definition coherent (p : LP) : Prop :=
  match st_ p with
  | kHasNull => v_ p = VNull
  | kHasBool => exists b, v_ p = VBool b
  | kHasNumber => exists n, v_ p = VNumber n
  | kHasString | kHasKey => exists s, v_ p = VString s
  | _ => True
  end.

(** ** The skip algorithm, as the spec words it *)

Definition depth_change (s : LookaheadParsingState) : Z :=
  if (s == kEnteringArray) || (s == kEnteringObject) then 1
  else if (s == kExitingArray) || (s == kExitingObject) then -1
  else 0.

(** "Repeat: if current state is an entering-container event, increment
    depth; if an exiting-container event, decrement depth; if Error, abort
    immediately (leave depth/state as is).  After evaluating state, fetch.
    Continue until" [stop depth]. *)
Fixpoint skip_until (stop : Z -> bool) (fuel : nat) (depth : Z) (p : LP)
  : option LP :=
  match fuel with
  | O => None
  | S fuel' =>
      if st_ p == kError then Some p
      else
        let depth := depth + depth_change (st_ p) in
        let p := ParseNext p in
        if stop depth then Some p else skip_until stop fuel' depth p
  end.

(** [skips stop es]: inside a container, at a positive depth, the loop runs
    through the events [es], one fetch each, and is back at the depth it
    started from. *)
Definition skips (stop : Z -> bool) (es : list Event) : Prop :=
  forall (d : Z) (fuel : nat) (p : LP) (r' : R),
    0 < d -> delivers (r_ p) es r' ->
    skip_until stop (List.length es + fuel) d (ParseNext p) =
    skip_until stop fuel d (fetch_n (List.length es) (ParseNext p)).

(** "Continue until depth reaches 0", with the counter "initialized to 0 for
    SkipValue or 1 for SkipArray/SkipObject". *)
Definition skip_algorithm (fuel : nat) (depth : Z) (p : LP) : option LP :=
  skip_until (fun d => d =? 0) fuel depth p.

End Calls.

(** ** JSON values and their event streams *)

(** A JSON value, to name the balanced streams an Event Source produces.
    The induction principle for the nested lists is [Json_ind] below. *)
Unset Elimination Schemes.
Inductive Json : Type :=
| JNull
| JBool (b : bool)
| JNumber (n : Number)
| JString (s : string)
| JArray (elements : list Json)
| JObject (members : list (string * Json)).
Set Elimination Schemes.

Definition number_event (n : Number) : Event :=
  match n with
  | NInt i => EvInt i
  | NUint u => EvUint u
  | NInt64 i => EvInt64 i
  | NUint64 u => EvUint64 u
  | NDouble d => EvDouble d
  end.

(** The events of a value, in document order: a scalar is one event, a
    container is bracketed by its start and end events. *)
Fixpoint events (j : Json) : list Event :=
  match j with
  | JNull => [EvNull]
  | JBool b => [EvBool b]
  | JNumber n => [number_event n]
  | JString s => [EvString s false]
  | JArray l =>
      EvStartArray :: flat_map events l ++ [EvEndArray (Z.of_nat (List.length l))]
  | JObject l =>
      EvStartObject
        :: flat_map (fun m => let '(k, v) := m in EvKey k false :: events v) l
        ++ [EvEndObject (Z.of_nat (List.length l))]
  end.

(** The first event of a value, and the events after it. *)
Definition first_event (j : Json) : Event :=
  match j with
  | JNull => EvNull
  | JBool b => EvBool b
  | JNumber n => number_event n
  | JString s => EvString s false
  | JArray _ => EvStartArray
  | JObject _ => EvStartObject
  end.

Definition rest_events (j : Json) : list Event := tl (events j).

(** Nesting depth of a value. *)
Fixpoint nesting (j : Json) : nat :=
  match j with
  | JArray l => S (fold_right (fun e => Nat.max (nesting e)) 0%nat l)
  | JObject l =>
      S (fold_right (fun m => let '(_, v) := m in Nat.max (nesting v)) 0%nat l)
  | _ => 0%nat
  end.

(** ** A scripted Event Source *)

(** What one call of [IterativeParseNext] does on a given document: it
    invokes a callback, or it meets a syntax error and invokes none. *)
Inductive Outcome : Type :=
| Emit (e : Event)
| SyntaxError.

(** The calls still to come, and the reader's error flag.  When the script
    is exhausted the document has ended: further calls do nothing. *)
Record Script : Type := mkScript {
  pending : list Outcome;
  failed : bool
}.

Definition script_next (s : Script) : ParseStep Script :=
  match pending s with
  | [] => NoCallback s
  | Emit e :: rest => Callback e (fun ok => mkScript rest (failed s || negb ok))
  | SyntaxError :: rest => NoCallback (mkScript rest true)
  end.

#[export] Instance Script_EventSource : EventSource Script := {|
  HasParseError := failed;
  IterativeParseInit := fun s => mkScript (pending s) false;
  IterativeParseNext := script_next;
  IterativeParseInit_clears := fun _ => eq_refl
|}.

(** A reader over the given script, not yet initialised. *)
Definition script (os : list Outcome) : Script := mkScript os false.

(** The documents of the scenarios.  [{"a":}]: the object opens, the key
    ["a"] is read, then a value is missing.  The empty document: the first
    call already fails.  ["42"] is delivered through [Uint], ["3.14"]
    through [Double], with the
    double nearest to 3.14. *)
Definition doc_missing_value : Script :=
  script [Emit EvStartObject; Emit (EvKey "a" false); SyntaxError].

Definition doc_empty : Script := script [SyntaxError].

Definition doc_42 : Script := script [Emit (EvUint 42)].

Definition doc_3_14 : Script := script [Emit (EvDouble 0x1.91eb851eb851fp+1%float)].

(** [{"a":1,"b":[true,null]}], the scenario of the spec. *)
Definition doc_scenario : Script :=
  script (map Emit
    [EvStartObject; EvKey "a" false; EvUint 1; EvKey "b" false; EvStartArray;
     EvBool true; EvNull; EvEndArray 2; EvEndObject 2]).

(** Parsers of the scenarios. *)
Definition parser_42 : LookaheadParser Script := LookaheadParser_new doc_42.

Definition parser_3_14 : LookaheadParser Script := LookaheadParser_new doc_3_14.

Definition parser_scenario : LookaheadParser Script :=
  LookaheadParser_new doc_scenario.

(** [GetString] on the number [42]: a type mismatch, which leaves [kError]. *)
Definition parser_failed : LookaheadParser Script := snd (GetString parser_42).

(** [{"a":}] after the constructor, after [EnterObject] (the key ["a"] is
    buffered) and after the [NextObjectKey] that reads the key. *)
Definition parser_missing_value : LookaheadParser Script :=
  LookaheadParser_new doc_missing_value.

Definition parser_at_key : LookaheadParser Script :=
  snd (EnterObject parser_missing_value).

Definition parser_after_key : LookaheadParser Script :=
  snd (NextObjectKey parser_at_key).

Definition parser_empty : LookaheadParser Script := LookaheadParser_new doc_empty.

(** A reader that hands the number over unparsed, which the handler rejects. *)
Definition doc_raw : Script := script [Emit (EvRawNumber "1e5" false)].

(** A second scripted Event Source, for documents on which a call both
    invokes a callback and raises the error: each call to come is the event
    it delivers and whether the reader fails once the handler has accepted
    it.  rapidjson does so on text after the root value, the adapter's
    flags lacking [kParseStopWhenDoneFlag]. *)
Record Marked : Type := mkMarked {
  steps : list (Event * bool);
  raised : bool
}.

Definition marked_next (s : Marked) : ParseStep Marked :=
  match steps s with
  | [] => NoCallback s
  | (e, fails) :: rest =>
      Callback e (fun ok => mkMarked rest (raised s || negb ok || fails))
  end.

#[export] Instance Marked_EventSource : EventSource Marked := {|
  HasParseError := raised;
  IterativeParseInit := fun s => mkMarked (steps s) false;
  IterativeParseNext := marked_next;
  IterativeParseInit_clears := fun _ => eq_refl
|}.

(** [{} x]: the object opens; the call that closes it delivers EndObject
    and then meets the [x], which is an error. *)
Definition doc_trailing : Marked :=
  mkMarked [(EvStartObject, false); (EvEndObject 0, true)] false.

Definition parser_trailing : LookaheadParser Marked :=
  LookaheadParser_new doc_trailing.

Definition fits_int (z : Z) : bool := (INT_MIN <=? z) && (z <=? INT_MAX).

(** [n] containers around [j], arrays and objects in turn, each with a
    scalar before and after the inner value. *)
Fixpoint nest (n : nat) (j : Json) : Json :=
  match n with
  | O => j
  | S n' =>
      if Nat.even n then JArray [JNull; nest n' j; JBool true]
      else JObject [("x"%string, JNumber (NUint 1)); ("y"%string, nest n' j)]
  end.

(** A value nested 20 deep, followed by the string "next". *)
Definition deep : Json := nest 20 (JString "leaf").

Definition doc_deep : Script :=
  script (map Emit (events deep ++ [EvString "next" false])).

Definition parser_deep : LookaheadParser Script := LookaheadParser_new doc_deep.

(** The parser a sequence of calls leaves (the parser itself when a skip
    runs out of iterations). *)
Definition after_ops (ops : list Op) (p : LookaheadParser Script)
  : LookaheadParser Script :=
  match run 16 ops p with
  | Some (_, q) => q
  | None => p
  end.

(** The scenario, up to the end of the array and up to the end of the
    object. *)
Definition parser_array_end : LookaheadParser Script :=
  after_ops [OpEnterObject; OpNextObjectKey; OpGetInt; OpNextObjectKey;
             OpEnterArray; OpNextArrayValue; OpGetBool; OpNextArrayValue;
             OpGetNull] parser_scenario.

Definition parser_object_end : LookaheadParser Script :=
  after_ops [OpNextArrayValue] parser_array_end.

(** The handler the constructor builds on [doc_raw], before its fetch. *)
Definition handler_raw : LookaheadParser Script :=
  mkHandler VNull kInit doc_raw 0%nat.

Definition all_ops : list Op :=
  [OpEnterObject; OpEnterArray; OpNextObjectKey; OpNextArrayValue; OpGetInt;
   OpGetDouble; OpGetString; OpGetBool; OpGetNull; OpSkipObject; OpSkipArray;
   OpSkipValue; OpPeekValue; OpPeekType; OpIsValid].

(** ** Visiting a value through the public methods *)

(** The getter that reads a number: [GetInt] when the number is an [int],
    [GetDouble] otherwise; and what it returns. *)
Definition number_op (n : Number) : Op :=
  if Value_IsInt (VNumber n) then OpGetInt else OpGetDouble.

Definition number_answer (n : Number) : Ret :=
  if Value_IsInt (VNumber n) then RetInt (Value_GetInt (VNumber n))
  else RetDouble (Value_GetDouble (VNumber n)).

(** The calls of a recursive descent over [j]: a getter for a scalar;
    [EnterArray], then [NextArrayValue] before each element and once more at
    the end; [EnterObject], then [NextObjectKey] before each member and once
    more at the end. *)
Fixpoint visit (j : Json) : list Op :=
  match j with
  | JNull => [OpGetNull]
  | JBool _ => [OpGetBool]
  | JNumber n => [number_op n]
  | JString _ => [OpGetString]
  | JArray l =>
      OpEnterArray :: flat_map (fun v => OpNextArrayValue :: visit v) l
        ++ [OpNextArrayValue]
  | JObject l =>
      OpEnterObject
        :: flat_map (fun m => let '(_, v) := m in OpNextObjectKey :: visit v) l
        ++ [OpNextObjectKey]
  end.

(** What those calls are to return on the document [j]. *)
Fixpoint answers (j : Json) : list Ret :=
  match j with
  | JNull => [RetVoid]
  | JBool b => [RetBool b]
  | JNumber n => [number_answer n]
  | JString s => [RetStr (Some s)]
  | JArray l =>
      RetBool true :: flat_map (fun v => RetBool true :: answers v) l
        ++ [RetBool false]
  | JObject l =>
      RetBool true
        :: flat_map (fun m => let '(k, v) := m in RetStr (Some k) :: answers v) l
        ++ [RetStr None]
  end.

(** The same descent, [n] levels deep: what lies deeper is skipped with
    [SkipValue].  [visit_to 1] of an object lists its keys and skips every
    value. *)
Fixpoint visit_to (n : nat) (j : Json) : list Op :=
  match n with
  | O => [OpSkipValue]
  | S n' =>
      match j with
      | JNull => [OpGetNull]
      | JBool _ => [OpGetBool]
      | JNumber m => [number_op m]
      | JString _ => [OpGetString]
      | JArray l =>
          OpEnterArray :: flat_map (fun v => OpNextArrayValue :: visit_to n' v) l
            ++ [OpNextArrayValue]
      | JObject l =>
          OpEnterObject
            :: flat_map
                 (fun m => let '(_, v) := m in OpNextObjectKey :: visit_to n' v) l
            ++ [OpNextObjectKey]
      end
  end.

Fixpoint answers_to (n : nat) (j : Json) : list Ret :=
  match n with
  | O => [RetVoid]
  | S n' =>
      match j with
      | JNull => [RetVoid]
      | JBool b => [RetBool b]
      | JNumber m => [number_answer m]
      | JString s => [RetStr (Some s)]
      | JArray l =>
          RetBool true :: flat_map (fun v => RetBool true :: answers_to n' v) l
            ++ [RetBool false]
      | JObject l =>
          RetBool true
            :: flat_map
                 (fun m => let '(k, v) := m in RetStr (Some k) :: answers_to n' v) l
            ++ [RetStr None]
      end
  end.

(** The events of the members of an object. *)
Definition member_events (l : list (string * Json)) : list Event :=
  flat_map (fun m => let '(k, v) := m in EvKey k false :: events v) l.

Definition is_container (j : Json) : bool :=
  match j with
  | JArray _ | JObject _ => true
  | _ => false
  end.

(** What is left of the container [c] once its first [k] elements or
    members are read: the others, and the closing event. *)
Definition remaining (c : Json) (k : nat) : list Event :=
  match c with
  | JArray l =>
      flat_map events (skipn k l) ++ [EvEndArray (Z.of_nat (List.length l))]
  | JObject l =>
      member_events (skipn k l) ++ [EvEndObject (Z.of_nat (List.length l))]
  | _ => []
  end.

(** The calls that fetch whenever they proceed. *)
Definition advances (o : Op) : bool :=
  match o with
  | OpEnterObject | OpEnterArray | OpNextObjectKey | OpGetInt | OpGetDouble
  | OpGetString | OpGetBool | OpGetNull => true
  | _ => false
  end.

Definition is_skip (o : Op) : bool :=
  match o with
  | OpSkipObject | OpSkipArray | OpSkipValue => true
  | _ => false
  end.

Section Reading.
Context {R : Type} {ES : EventSource R}.
Local Abbreviation LP := (LookaheadParser R).

(** [reads fuel ops rs es]: once the first of the events [es] is buffered
    and while the reader delivers the others, the calls [ops] return [rs]
    and perform one fetch per event. *)
Definition reads (fuel : nat) (ops : list Op) (rs : list Ret) (es : list Event)
  : Prop :=
  forall (p : LP) (r' : R),
    delivers (r_ p) es r' ->
    run fuel ops (ParseNext p) =
    Some (rs, fetch_n (List.length es) (ParseNext p)).

(** A reader that has nothing more to deliver and reports no error: the
    document has ended. *)
Definition exhausted (r : R) : Prop :=
  HasParseError r = false /\ IterativeParseNext r = NoCallback r.

End Reading.

(** The reader of the document that is the value [j]. *)
Definition doc_of (j : Json) : Script := script (map Emit (events j)).

(** [{"name":"dali","shape":[3,0.5],"meta":{"ok":true,"none":null}}]. *)
Definition sample : Json :=
  JObject
    [("name"%string, JString "dali");
     ("shape"%string, JArray [JNumber (NUint 3); JNumber (NDouble 0.5%float)]);
     ("meta"%string, JObject [("ok"%string, JBool true); ("none"%string, JNull)])].

Definition parser_sample : LookaheadParser Script :=
  LookaheadParser_new (doc_of sample).

(** The handler the constructor builds on a reader, before its fetch. *)
Definition handler_of (s : Script) : LookaheadParser Script :=
  mkHandler VNull kInit s 0%nat.

(** [[[1,2,3],"x"]], and its parser once both arrays are entered: the
    element [1] is buffered. *)
Definition inner : Json :=
  JArray [JNumber (NUint 1); JNumber (NUint 2); JNumber (NUint 3)].

Definition nested : Json := JArray [inner; JString "x"].

Definition parser_in_array : LookaheadParser Script :=
  after_ops [OpEnterArray; OpNextArrayValue; OpEnterArray; OpNextArrayValue]
    (LookaheadParser_new (doc_of nested)).

(** * Properties *)

(** ** Comparisons of states *)

Lemma state_index_inj (a b : LookaheadParsingState) :
  state_index a = state_index b -> a = b.
Proof. destruct a, b; simpl; intro E; try reflexivity; discriminate E. Qed.

Lemma state_eqb_eq (a b : LookaheadParsingState) :
  state_eqb a b = true <-> a = b.
Proof.
  unfold state_eqb; rewrite Z.eqb_eq; split.
  - apply state_index_inj.
  - intros ->; reflexivity.
Qed.

Lemma state_eqb_refl (a : LookaheadParsingState) : state_eqb a a = true.
Proof. apply state_eqb_eq; reflexivity. Qed.

Lemma state_eqb_neq (a b : LookaheadParsingState) :
  state_eqb a b = false <-> a <> b.
Proof.
  split.
  - intros E ->; rewrite state_eqb_refl in E; discriminate E.
  - intro N; destruct (state_eqb a b) eqn:E; [|reflexivity].
    apply state_eqb_eq in E; contradiction.
Qed.

(** Splits the conjunctions of a goal, and nothing else. *)
Ltac split_ands :=
  repeat match goal with |- _ /\ _ => split end.

(** Case analysis on the state of a parser, with the equation kept. *)
Ltac case_state p :=
  let E := fresh "Est" in
  destruct (st_ p) eqn:E.

Section Fetch.
Context {R : Type} {ES : EventSource R}.
Local Abbreviation LP := (LookaheadParser R).

(** ** The fetch *)

Lemma ParseNext_failed (p : LP) :
  HasParseError (r_ p) = true -> ParseNext p = set_st kError (tick p).
Proof. intro E; unfold ParseNext; simpl; rewrite E; reflexivity. Qed.

Lemma ParseNext_silent (p : LP) :
  HasParseError (r_ p) = false -> emitted (r_ p) = None ->
  ParseNext p = set_r (after (r_ p)) (tick p).
Proof.
  intros E N; unfold ParseNext, emitted, after in *; simpl; rewrite E.
  destruct (IterativeParseNext (r_ p)); [discriminate N | reflexivity].
Qed.

Lemma ParseNext_raw (p : LP) (s : string) (c : bool) :
  HasParseError (r_ p) = false -> emitted (r_ p) = Some (EvRawNumber s c) ->
  exists r', ParseNext p = set_r r' (tick p).
Proof.
  intros E N; unfold ParseNext, emitted in *; simpl; rewrite E.
  destruct (IterativeParseNext (r_ p)) as [e k|r']; [|discriminate N].
  injection N as ->; simpl; eexists; reflexivity.
Qed.

Lemma ParseNext_event (p : LP) (e : Event) :
  HasParseError (r_ p) = false -> emitted (r_ p) = Some e -> is_raw e = false ->
  ParseNext p =
  mkHandler (value_of e (v_ p)) (state_of e (st_ p)) (after (r_ p)) (S (fetches p)).
Proof.
  intros E N Hraw; unfold ParseNext, emitted, after in *; simpl; rewrite E.
  destruct (IterativeParseNext (r_ p)) as [e' k|r']; [|discriminate N].
  injection N as ->; destruct e; try discriminate Hraw; reflexivity.
Qed.

Lemma fetches_ParseNext (p : LP) : fetches (ParseNext p) = S (fetches p).
Proof.
  unfold ParseNext; simpl; destruct (HasParseError (r_ p)); [reflexivity|].
  destruct (IterativeParseNext (r_ p)) as [e k|r']; [|reflexivity].
  destruct e; reflexivity.
Qed.

Lemma fetches_fetch_n (n : nat) (p : LP) :
  fetches (fetch_n n p) = (n + fetches p)%nat.
Proof.
  induction n as [|n IH]; [reflexivity|].
  unfold fetch_n in *; simpl; rewrite fetches_ParseNext, IH; reflexivity.
Qed.

Lemma fetch_n_succ_r (n : nat) (p : LP) :
  fetch_n (S n) p = fetch_n n (ParseNext p).
Proof. unfold fetch_n; apply Nat.iter_succ_r. Qed.

Lemma fetch_n_add (n m : nat) (p : LP) :
  fetch_n (n + m) p = fetch_n m (fetch_n n p).
Proof.
  revert p; induction n as [|n IH]; intro p; [reflexivity|].
  change (S n + m)%nat with (S (n + m)).
  rewrite !fetch_n_succ_r; apply IH.
Qed.

(** A fetch keeps the state and the value of a scalar or key together. *)
Lemma coherent_ParseNext (p : LP) : coherent p -> coherent (ParseNext p).
Proof.
  intro C; unfold ParseNext; simpl.
  destruct (HasParseError (r_ p)); [exact I|].
  destruct (IterativeParseNext (r_ p)) as [e k|r']; [|exact C].
  destruct e; unfold coherent; simpl; try exact I; try exact C;
    try reflexivity; eexists; reflexivity.
Qed.

Lemma coherent_set_Error (p : LP) : coherent (set_st kError p).
Proof. exact I. Qed.

Lemma coherent_new (fresh : R) : coherent (LookaheadParser_new fresh).
Proof. apply coherent_ParseNext; exact I. Qed.

End Fetch.

Section Navigation.
Context {R : Type} {ES : EventSource R}.
Local Abbreviation LP := (LookaheadParser R).

(** ** Calls that refuse to proceed *)

Lemma set_st_same (p : LP) (s : LookaheadParsingState) :
  st_ p = s -> set_st s p = p.
Proof. destruct p; simpl; intros ->; reflexivity. Qed.

Lemma SkipOut_Error (fuel : nat) (depth : Z) (p : LP) :
  st_ p = kError -> SkipOut (S fuel) depth p = Some p.
Proof. intro E; simpl; rewrite E; reflexivity. Qed.

(** In [kError] a call returns its sentinel and leaves the parser as it is. *)
Lemma call_in_Error (fuel : nat) (o : Op) (p : LP) :
  st_ p = kError -> call (S fuel) o p = Some (sentinel o, p).
Proof.
  intro E.
  destruct o;
    unfold call, returning, EnterObject, EnterArray, NextObjectKey,
      NextArrayValue, GetInt, GetDouble, GetString, GetBool, GetNull,
      SkipObject, SkipArray, SkipValue, PeekValue, PeekType, IsValid;
    try rewrite (SkipOut_Error fuel _ p E);
    rewrite ?E; simpl; rewrite ?(set_st_same p kError E); reflexivity.
Qed.

(** C1: the Error state is absorbing.  From a parser whose state is
    [kError], every sequence of calls (EnterObject, EnterArray,
    NextObjectKey, NextArrayValue, the scalar getters, the three skips,
    PeekValue, PeekType, IsValid) returns the failure sentinel of each call
    and ends in the very same parser: the state is still [kError], and the
    reader, the buffered value and the count of fetches are untouched, so
    no call has fetched. *)
Theorem Error_is_absorbing (fuel : nat) (ops : list Op) (p : LP) :
  st_ p = kError ->
  run (S fuel) ops p = Some (map sentinel ops, p).
Proof.
  intro E; induction ops as [|o ops IH]; [reflexivity|].
  cbn [run map]; rewrite (call_in_Error fuel o p E), IH; reflexivity.
Qed.

(** C5: NextArrayValue.  In [kExitingArray] it fetches and returns false;
    in [kError], [kExitingObject] or [kHasKey] it sets the state to
    [kError] and returns false, without a fetch; in every other state it
    returns true and leaves the parser, buffered token included, exactly as
    it was. *)
Theorem NextArrayValue_cases (p : LP) :
  (st_ p = kExitingArray -> NextArrayValue p = (false, ParseNext p)) /\
  (st_ p = kError \/ st_ p = kExitingObject \/ st_ p = kHasKey ->
   NextArrayValue p = (false, set_st kError p)) /\
  (st_ p <> kExitingArray -> st_ p <> kError -> st_ p <> kExitingObject ->
   st_ p <> kHasKey -> NextArrayValue p = (true, p)).
Proof.
  unfold NextArrayValue; repeat split.
  - intros ->; reflexivity.
  - intros [-> | [-> | ->]]; reflexivity.
  - intros N1 N2 N3 N4; case_state p; try contradiction; reflexivity.
Qed.

(** C7: NextObjectKey.  In [kHasKey] it returns the buffered key text and
    fetches; in [kExitingObject] it fetches and returns the null pointer;
    in every other state it sets the state to [kError] and returns the null
    pointer, without a fetch. *)
Theorem NextObjectKey_cases (p : LP) :
  (st_ p = kHasKey ->
   NextObjectKey p = (Some (Value_GetString (v_ p)), ParseNext p)) /\
  (forall key, st_ p = kHasKey -> v_ p = VString key ->
   NextObjectKey p = (Some key, ParseNext p)) /\
  (st_ p = kExitingObject -> NextObjectKey p = (None, ParseNext p)) /\
  (st_ p <> kHasKey -> st_ p <> kExitingObject ->
   NextObjectKey p = (None, set_st kError p) /\
   fetches (snd (NextObjectKey p)) = fetches p /\
   r_ (snd (NextObjectKey p)) = r_ p).
Proof.
  unfold NextObjectKey; repeat split.
  - intros ->; reflexivity.
  - intros key -> ->; reflexivity.
  - intros ->; reflexivity.
  - case_state p; try contradiction; reflexivity.
  - case_state p; try contradiction; reflexivity.
  - case_state p; try contradiction; reflexivity.
Qed.

(** C10: a precondition violation fails atomically.  When EnterObject,
    EnterArray, NextObjectKey, NextArrayValue or a scalar getter is called
    in a state outside its precondition, the call returns its sentinel and
    the parser it leaves differs from the one it found in the state only,
    which is [kError]: the buffered value, the reader and the count of
    fetches are unchanged. *)
Theorem violation_only_sets_Error (fuel : nat) (o : Op) (p : LP) :
  precondition o p = false ->
  call fuel o p = Some (sentinel o, set_st kError p) /\
  st_ (set_st kError p) = kError /\
  v_ (set_st kError p) = v_ p /\
  r_ (set_st kError p) = r_ p /\
  fetches (set_st kError p) = fetches p.
Proof.
  intro V; split; [|repeat split].
  destruct o; try discriminate V;
    unfold precondition in V;
    unfold call, returning, EnterObject, EnterArray, NextObjectKey,
      NextArrayValue, GetInt, GetDouble, GetString, GetBool, GetNull.
  - rewrite V; reflexivity.
  - rewrite V; reflexivity.
  - apply orb_false_elim in V as [V1 V2]; rewrite V1, V2; reflexivity.
  - apply negb_false_iff in V.
    destruct (state_eqb (st_ p) kExitingArray) eqn:X.
    + apply state_eqb_eq in X; rewrite X in V; discriminate V.
    + rewrite V; reflexivity.
  - replace (negb (state_eqb (st_ p) kHasNumber) || negb (Value_IsInt (v_ p)))
      with true; [reflexivity|].
    rewrite <- negb_andb, V; reflexivity.
  - rewrite V; reflexivity.
  - rewrite V; reflexivity.
  - rewrite V; reflexivity.
  - rewrite V; reflexivity.
Qed.

(** ** Peeking *)

Lemma scalar_state_range (s : LookaheadParsingState) :
  (state_leb kHasNull s && state_leb s kHasKey)%bool = scalar_state s.
Proof. destruct s; reflexivity. Qed.

End Navigation.

Section Peeking.
Context {R : Type} {ES : EventSource R}.
Local Abbreviation LP := (LookaheadParser R).

Lemma PeekValue_eq (p : LP) :
  PeekValue p = (if scalar_state (st_ p) then Some (v_ p) else None, p).
Proof.
  unfold PeekValue; rewrite scalar_state_range.
  destruct (scalar_state (st_ p)); reflexivity.
Qed.

Lemma PeekType_eq (p : LP) :
  PeekType p =
  (if scalar_state (st_ p) then Type_to_int (Value_GetType (v_ p))
   else match st_ p with
        | kEnteringArray => Type_to_int kArrayType
        | kEnteringObject => Type_to_int kObjectType
        | _ => -1
        end, p).
Proof.
  unfold PeekType; rewrite scalar_state_range.
  destruct (st_ p); reflexivity.
Qed.

Lemma call_peek (fuel : nat) (o : Op) (p : LP) :
  is_peek o = true -> call fuel o p = Some (peeked o p, p).
Proof.
  destruct o; try discriminate; intros _; unfold call, returning, peeked.
  - rewrite PeekValue_eq; reflexivity.
  - rewrite PeekType_eq; reflexivity.
Qed.

Lemma run_peeks (fuel : nat) (ops : list Op) (p : LP) :
  forallb is_peek ops = true ->
  run fuel ops p = Some (map (fun o => peeked o p) ops, p).
Proof.
  induction ops as [|o ops IH]; [reflexivity|].
  cbn [forallb]; intro A; apply andb_prop in A as [A1 A2].
  cbn [run map]; rewrite (call_peek fuel o p A1), (IH A2); reflexivity.
Qed.

Lemma run_without_peeks (fuel : nat) (ops : list Op) (p : LP) :
  run fuel (filter (fun o => negb (is_peek o)) ops) p =
  option_map (fun out => (without_peeks ops (fst out), snd out)) (run fuel ops p).
Proof.
  revert p; induction ops as [|o ops IH]; intro p; [reflexivity|].
  cbn [filter]; destruct (is_peek o) eqn:P; cbn [negb].
  - cbn [run]; rewrite (call_peek fuel o p P), IH.
    destruct (run fuel ops p) as [[rs q]|]; [|reflexivity].
    cbn [option_map fst snd without_peeks]; rewrite P; reflexivity.
  - cbn [run]; destruct (call fuel o p) as [[res p']|]; [|reflexivity].
    rewrite IH; destruct (run fuel ops p') as [[rs q]|]; [|reflexivity].
    cbn [option_map fst snd without_peeks]; rewrite P; reflexivity.
Qed.

(** C8: PeekValue and PeekType never advance the cursor nor change the
    parser.  Either returns the parser it was given; any run of consecutive
    peeks returns, call after call, what the first one returned and leaves
    the parser as it was; a sequence of calls ends in the same parser and
    gives the same results to its other calls when the peeks are left out.
    PeekValue returns the buffered value in the states [kHasNull] to
    [kHasKey] and the null pointer otherwise; PeekType returns the type tag
    of the buffered value in those states, the array or object tag in
    [kEnteringArray] or [kEnteringObject], and [-1] in the remaining states
    ([kInit], [kError], [kExitingObject], [kExitingArray]), a value that is
    no type tag. *)
Theorem peeks_leave_the_parser (fuel : nat) (p : LP) :
  snd (PeekValue p) = p /\ snd (PeekType p) = p /\
  (forall ops, forallb is_peek ops = true ->
     run fuel ops p = Some (map (fun o => peeked o p) ops, p)) /\
  (forall ops,
     run fuel (filter (fun o => negb (is_peek o)) ops) p =
     option_map (fun out => (without_peeks ops (fst out), snd out))
       (run fuel ops p)) /\
  fst (PeekValue p) = (if scalar_state (st_ p) then Some (v_ p) else None) /\
  fst (PeekType p) =
    (if scalar_state (st_ p) then Type_to_int (Value_GetType (v_ p))
     else match st_ p with
          | kEnteringArray => Type_to_int kArrayType
          | kEnteringObject => Type_to_int kObjectType
          | _ => -1
          end) /\
  (forall t, Type_to_int t <> -1).
Proof.
  rewrite PeekValue_eq, PeekType_eq; cbn [fst snd].
  repeat split.
  - intros ops A; apply run_peeks; exact A.
  - intro ops; apply run_without_peeks.
  - intro t; destruct t; discriminate.
Qed.

End Peeking.

(** ** Numbers *)

Section Numbers.
Context {R : Type} {ES : EventSource R}.
Local Abbreviation LP := (LookaheadParser R).

Lemma Value_IsInt_number (n : Number) :
  Value_IsInt (VNumber n) =
  match number_integer n with Some z => fits_int z | None => false end.
Proof. reflexivity. Qed.

Lemma fits_int_range (z : Z) : fits_int z = true <-> INT_MIN <= z <= INT_MAX.
Proof. unfold fits_int; rewrite andb_true_iff, !Z.leb_le; reflexivity. Qed.

Lemma GetInt_ok (p : LP) :
  st_ p = kHasNumber -> Value_IsInt (v_ p) = true ->
  GetInt p = (Value_GetInt (v_ p), ParseNext p).
Proof. intros E I; unfold GetInt; rewrite E, I; reflexivity. Qed.

Lemma GetInt_not_int (p : LP) :
  Value_IsInt (v_ p) = false -> GetInt p = (0, set_st kError p).
Proof.
  intro I; unfold GetInt; rewrite I, orb_true_r; reflexivity.
Qed.

Lemma GetInt_not_number (p : LP) :
  st_ p <> kHasNumber -> GetInt p = (0, set_st kError p).
Proof.
  intro N; apply state_eqb_neq in N; unfold GetInt; rewrite N; reflexivity.
Qed.

Lemma GetDouble_ok (p : LP) :
  st_ p = kHasNumber -> GetDouble p = (Value_GetDouble (v_ p), ParseNext p).
Proof. intro E; unfold GetDouble; rewrite E; reflexivity. Qed.

End Numbers.

(** C6: GetInt and GetDouble.  GetInt returns the buffered integer and
    fetches exactly when the state is [kHasNumber] and the number is an
    integer in the range of [int]; when the number is a double or an integer
    outside that range, or the state is another one, GetInt sets [kError]
    and returns 0 without a fetch.  GetDouble returns the number and
    fetches in every [kHasNumber] state, an integer being converted to
    double.  On "42" GetInt returns 42 and GetDouble 42.0; on "3.14" GetInt
    fails into [kError]. *)
Theorem GetInt_exact_GetDouble_widens :
  (forall (R : Type) (ES : EventSource R) (p : LookaheadParser R),
     (forall n z, st_ p = kHasNumber -> v_ p = VNumber n ->
        number_integer n = Some z -> INT_MIN <= z <= INT_MAX ->
        GetInt p = (z, ParseNext p)) /\
     (forall n z, v_ p = VNumber n -> number_integer n = Some z ->
        z < INT_MIN \/ INT_MAX < z -> GetInt p = (0, set_st kError p)) /\
     (forall d, v_ p = VNumber (NDouble d) -> GetInt p = (0, set_st kError p)) /\
     (st_ p <> kHasNumber -> GetInt p = (0, set_st kError p)) /\
     (precondition OpGetInt p = true <->
      st_ p = kHasNumber /\
      exists n z, v_ p = VNumber n /\ number_integer n = Some z /\
                  INT_MIN <= z <= INT_MAX) /\
     (forall n z, st_ p = kHasNumber -> v_ p = VNumber n ->
        number_integer n = Some z -> GetDouble p = (Z2double z, ParseNext p)) /\
     (forall d, st_ p = kHasNumber -> v_ p = VNumber (NDouble d) ->
        GetDouble p = (d, ParseNext p)) /\
     (st_ p <> kHasNumber -> GetDouble p = (0%float, set_st kError p))) /\
  GetInt parser_42 = (42, ParseNext parser_42) /\
  GetDouble parser_42 = (42%float, ParseNext parser_42) /\
  st_ parser_3_14 = kHasNumber /\
  GetInt parser_3_14 = (0, set_st kError parser_3_14).
Proof.
  split; [|repeat split].
  intros R ES p; split_ands.
  - intros n z E V N Hz; rewrite GetInt_ok; [rewrite V; simpl; rewrite N; reflexivity|exact E|].
    rewrite V, Value_IsInt_number, N; apply fits_int_range; exact Hz.
  - intros n z V N Hz; apply GetInt_not_int.
    rewrite V, Value_IsInt_number, N.
    destruct (fits_int z) eqn:F; [|reflexivity].
    apply fits_int_range in F; lia.
  - intros d V; apply GetInt_not_int; rewrite V; reflexivity.
  - apply GetInt_not_number.
  - split.
    + cbn [precondition]; intro A; apply andb_prop in A as [E I].
      apply state_eqb_eq in E; split; [exact E|].
      destruct (v_ p) as [| |n|]; try discriminate I.
      rewrite Value_IsInt_number in I.
      destruct (number_integer n) as [z|] eqn:N; [|discriminate I].
      exists n, z; split_ands; try apply fits_int_range; auto.
    + intros [E [n [z [V [N Hz]]]]]; cbn [precondition].
      apply andb_true_intro; split; [apply state_eqb_eq; exact E|].
      rewrite V, Value_IsInt_number, N; apply fits_int_range; exact Hz.
  - intros n z E V N; rewrite GetDouble_ok by exact E; rewrite V.
    destruct n; simpl in N; try discriminate N; injection N as ->; reflexivity.
  - intros d E V; rewrite GetDouble_ok by exact E; rewrite V; reflexivity.
  - intro N; apply state_eqb_neq in N; unfold GetDouble; rewrite N; reflexivity.
Qed.

(** ** Errors of the Event Source *)

Section SourceErrors.
Context {R : Type} {ES : EventSource R}.
Local Abbreviation LP := (LookaheadParser R).

Lemma dispatch_state (e : Event) (p : LP) :
  st_ (snd (Handler.dispatch e p)) = state_of e (st_ p) /\
  v_ (snd (Handler.dispatch e p)) = value_of e (v_ p) /\
  fst (Handler.dispatch e p) = negb (is_raw e).
Proof. destruct e; repeat split. Qed.

(** A fetch that reaches the reader sets the state a callback leaves, or
    none: it never sets [kError] by itself. *)
Lemma ParseNext_keeps_valid (p : LP) :
  HasParseError (r_ p) = false -> st_ p <> kError -> st_ (ParseNext p) <> kError.
Proof.
  intros E N; unfold ParseNext; simpl; rewrite E.
  destruct (IterativeParseNext (r_ p)) as [e k|r']; [|exact N].
  destruct e; simpl; try exact N; discriminate.
Qed.

Lemma ParseNext_unchanged (p : LP) :
  HasParseError (r_ p) = false ->
  emitted (r_ p) = None \/ (exists s c, emitted (r_ p) = Some (EvRawNumber s c)) ->
  st_ (ParseNext p) = st_ p /\ v_ (ParseNext p) = v_ p.
Proof.
  intros E [N | [s [c N]]].
  - rewrite (ParseNext_silent p E N); split; reflexivity.
  - destruct (ParseNext_raw p s c E N) as [r' ->]; split; reflexivity.
Qed.

Lemma IsValid_eq (p : LP) : fst (IsValid p) = true <-> st_ p <> kError.
Proof.
  unfold IsValid; cbn [fst]; rewrite negb_true_iff; apply state_eqb_neq.
Qed.

Lemma IsValid_false (p : LP) : fst (IsValid p) = false <-> st_ p = kError.
Proof.
  unfold IsValid; cbn [fst]; rewrite negb_false_iff; apply state_eqb_eq.
Qed.

(** The constructor reaches the reader: [IterativeParseInit] has cleared its
    error. *)
Lemma new_unfold (fresh : R) :
  LookaheadParser_new fresh =
  ParseNext (mkHandler VNull kInit (IterativeParseInit fresh) 0%nat).
Proof. reflexivity. Qed.

Lemma new_valid (fresh : R) : st_ (LookaheadParser_new fresh) <> kError.
Proof.
  rewrite new_unfold; apply ParseNext_keeps_valid; simpl.
  - apply IterativeParseInit_clears.
  - discriminate.
Qed.

End SourceErrors.

(** C3, the claim as the spec states it, fails on the empty document: the
    one fetch of the constructor meets the reader's error, the state stays
    [kInit] and IsValid() answers true. *)
Lemma new_on_empty_document_is_valid :
  HasParseError (r_ parser_empty) = true /\
  st_ parser_empty = kInit /\
  fst (IsValid parser_empty) = true.
Proof. repeat split. Qed.

(** C3, amended: construction performs exactly one fetch.  When the first
    call of the Event Source invokes a callback, the fresh parser's state
    and value are the ones that callback leaves: they reflect the first
    token.  When it invokes none (the document is empty or invalid from the
    start), the state is [kInit].  In both cases IsValid() is true after
    construction; if the reader has failed, the next fetch sets [kError]. *)
Theorem construction_fetches_once
  (R : Type) (ES : EventSource R) (fresh : R) :
  fetches (LookaheadParser_new fresh) = 1%nat /\
  (forall e, emitted (IterativeParseInit fresh) = Some e ->
     st_ (LookaheadParser_new fresh) = state_of e kInit /\
     v_ (LookaheadParser_new fresh) = value_of e VNull) /\
  (emitted (IterativeParseInit fresh) = None ->
     st_ (LookaheadParser_new fresh) = kInit /\
     v_ (LookaheadParser_new fresh) = VNull) /\
  fst (IsValid (LookaheadParser_new fresh)) = true /\
  (HasParseError (r_ (LookaheadParser_new fresh)) = true ->
     fst (IsValid (ParseNext (LookaheadParser_new fresh))) = false).
Proof.
  assert (C : HasParseError (IterativeParseInit fresh) = false)
    by apply IterativeParseInit_clears.
  split_ands.
  - rewrite new_unfold, fetches_ParseNext; reflexivity.
  - intros e N; rewrite new_unfold; unfold ParseNext, emitted in *; simpl.
    rewrite C; destruct (IterativeParseNext (IterativeParseInit fresh))
      as [e' k|r']; [|discriminate N].
    injection N as ->; destruct e; split; reflexivity.
  - intro N; rewrite new_unfold, ParseNext_silent by assumption.
    split; reflexivity.
  - apply IsValid_eq, new_valid.
  - intro F; apply IsValid_false; rewrite (ParseNext_failed _ F); reflexivity.
Qed.

(** C2, the claim as the spec states it, fails on [{"a":}]: the fetch
    made while the key ["a"] is buffered is the one during which the reader
    reports its syntax error, and it leaves the state [kHasKey], not
    [kError]; IsValid() is still true. *)
Lemma failing_fetch_leaves_state :
  HasParseError (r_ parser_at_key) = false /\
  HasParseError (r_ (ParseNext parser_at_key)) = true /\
  st_ (ParseNext parser_at_key) = kHasKey /\
  fst (IsValid (ParseNext parser_at_key)) = true.
Proof. repeat split. Qed.

(** C2, amended: every fetch that starts once the Event Source has reported
    a syntax error sets the state to [kError] (and does not call the reader
    again); a fetch that starts before, the one during which the error is
    reported included, leaves a valid parser valid.  On [{"a":}]:
    EnterObject succeeds, NextObjectKey returns "a", and its fetch is the
    one that meets the error, after which IsValid() is still true; the very
    next fetch makes IsValid() false. *)
Theorem fetch_after_error_sets_Error :
  (forall (R : Type) (ES : EventSource R) (p : LookaheadParser R),
     HasParseError (r_ p) = true ->
     st_ (ParseNext p) = kError /\
     fst (IsValid (ParseNext p)) = false /\
     r_ (ParseNext p) = r_ p) /\
  (forall (R : Type) (ES : EventSource R) (p : LookaheadParser R),
     HasParseError (r_ p) = false -> fst (IsValid p) = true ->
     fst (IsValid (ParseNext p)) = true) /\
  fst (EnterObject parser_missing_value) = true /\
  fst (NextObjectKey parser_at_key) = Some "a"%string /\
  HasParseError (r_ parser_after_key) = true /\
  fst (IsValid parser_after_key) = true /\
  fst (IsValid (ParseNext parser_after_key)) = false.
Proof.
  split; [|split; [|repeat split]].
  - intros R ES p F; rewrite (ParseNext_failed p F); repeat split.
  - intros R ES p E V; apply IsValid_eq, ParseNext_keeps_valid; [exact E|].
    apply IsValid_eq; exact V.
Qed.

(** C9, the claim as it is stated, fails on [{} x]: the fetch of
    EnterObject is the one during which the reader raises its error, and in
    that same call the reader has delivered EndObject.  The state is no
    longer the one of the previous token ([kEnteringObject]) but
    [kExitingObject], and PeekType answers [-1] where it answered the
    object tag. *)
Lemma failing_fetch_changes_token :
  HasParseError (r_ parser_trailing) = false /\
  HasParseError (r_ (ParseNext parser_trailing)) = true /\
  EnterObject parser_trailing = (true, ParseNext parser_trailing) /\
  st_ parser_trailing = kEnteringObject /\
  st_ (ParseNext parser_trailing) = kExitingObject /\
  fst (PeekType parser_trailing) = Type_to_int kObjectType /\
  fst (PeekType (ParseNext parser_trailing)) = -1.
Proof. repeat split. Qed.

(** C9, amended: a fetch during which the Event Source fails shows no error
    yet.  Let a fetch reach the reader and leave it with its error flag
    set.  Then IsValid() is as true after that fetch as before.  When the
    reader invoked no callback (it met a syntax error before any event) or
    invoked RawNumber (which the handler rejects), the state and the
    buffered value are the ones of the previous token, and PeekValue and
    PeekType answer as before.  When the reader invoked another callback
    before it failed, the state and the value are the ones that callback
    leaves.  In every case the state becomes [kError] at the next fetch,
    which does not call the reader.  In particular a parser constructed on
    a document whose first call invokes no callback is in [kInit], with
    IsValid() true. *)
Theorem error_shows_one_fetch_late
  (R : Type) (ES : EventSource R) (p : LookaheadParser R) (fresh : R) :
  HasParseError (r_ p) = false ->
  HasParseError (r_ (ParseNext p)) = true ->
  (st_ p <> kError -> fst (IsValid (ParseNext p)) = true) /\
  (emitted (r_ p) = None \/ (exists s c, emitted (r_ p) = Some (EvRawNumber s c)) ->
   st_ (ParseNext p) = st_ p /\ v_ (ParseNext p) = v_ p /\
   fst (PeekValue (ParseNext p)) = fst (PeekValue p) /\
   fst (PeekType (ParseNext p)) = fst (PeekType p)) /\
  (forall e, emitted (r_ p) = Some e -> is_raw e = false ->
   st_ (ParseNext p) = token_state e /\
   v_ (ParseNext p) = value_of e (v_ p)) /\
  st_ (ParseNext (ParseNext p)) = kError /\
  r_ (ParseNext (ParseNext p)) = r_ (ParseNext p) /\
  (emitted (IterativeParseInit fresh) = None ->
   st_ (LookaheadParser_new fresh) = kInit /\
   fst (IsValid (LookaheadParser_new fresh)) = true).
Proof.
  intros E F; split_ands.
  - intro N; apply IsValid_eq, ParseNext_keeps_valid; assumption.
  - intro C; destruct (ParseNext_unchanged p E C) as [S V].
    rewrite !PeekValue_eq, !PeekType_eq; cbn [fst]; rewrite S, V.
    repeat split.
  - intros e N Hraw; rewrite (ParseNext_event p e E N Hraw); cbn [st_ v_].
    split; [|reflexivity].
    destruct e; try discriminate Hraw; reflexivity.
  - rewrite (ParseNext_failed _ F); reflexivity.
  - rewrite (ParseNext_failed _ F); reflexivity.
  - intro N; split; [|apply IsValid_eq, new_valid].
    rewrite new_unfold, ParseNext_silent; [reflexivity| |exact N].
    apply IterativeParseInit_clears.
Qed.

(** ** Skipping *)

Lemma Json_ind (P : Json -> Prop)
  (Hnull : P JNull)
  (Hbool : forall b, P (JBool b))
  (Hnumber : forall n, P (JNumber n))
  (Hstring : forall s, P (JString s))
  (Harray : forall l, Forall P l -> P (JArray l))
  (Hobject : forall l, Forall (fun m => P (snd m)) l -> P (JObject l)) :
  forall j, P j.
Proof.
  fix IH 1; intros [ |b|n|s|l|l].
  - exact Hnull.
  - apply Hbool.
  - apply Hnumber.
  - apply Hstring.
  - apply Harray; revert l; fix IHl 1; intros [|j l]; constructor.
    + apply IH.
    + apply IHl.
  - apply Hobject; revert l; fix IHl 1; intros [|[k j] l]; constructor.
    + apply IH.
    + apply IHl.
Qed.

Lemma events_first_rest (j : Json) :
  events j = first_event j :: rest_events j.
Proof. destruct j; reflexivity. Qed.

Section Delivery.
Context {R : Type} {ES : EventSource R}.
Local Abbreviation LP := (LookaheadParser R).

Lemma state_of_token (e : Event) (s : LookaheadParsingState) :
  is_raw e = false -> state_of e s = token_state e.
Proof. destruct e; try discriminate; reflexivity. Qed.

Lemma delivers_step (p : LP) (e : Event) (es : list Event) (r' : R) :
  delivers (r_ p) (e :: es) r' ->
  st_ (ParseNext p) = token_state e /\
  v_ (ParseNext p) = value_of e (v_ p) /\
  delivers (r_ (ParseNext p)) es r'.
Proof.
  intros [E [N [Hraw D]]]; rewrite (ParseNext_event p e E N Hraw); simpl.
  split_ands; [apply state_of_token; exact Hraw|reflexivity|exact D].
Qed.

Lemma delivers_app (es1 es2 : list Event) (p : LP) (r' : R) :
  delivers (r_ p) (es1 ++ es2) r' ->
  delivers (r_ (fetch_n (List.length es1) p)) es2 r'.
Proof.
  revert p; induction es1 as [|e es1 IH]; intros p D; [exact D|].
  cbn [List.length]; rewrite fetch_n_succ_r; apply IH.
  apply (delivers_step p e _ r' D).
Qed.

Lemma delivers_prefix (es1 es2 : list Event) (r r' : R) :
  delivers r (es1 ++ es2) r' -> exists rm, delivers r es1 rm.
Proof.
  revert r; induction es1 as [|e es1 IH]; intros r D.
  - exists r; reflexivity.
  - destruct D as [E [N [Hraw D]]]; destruct (IH _ D) as [rm Dm].
    exists rm; simpl; auto.
Qed.

Lemma delivers_end (es : list Event) (p : LP) (r' : R) :
  delivers (r_ p) es r' -> r_ (fetch_n (List.length es) p) = r'.
Proof.
  intro D; rewrite <- (app_nil_r es) in D.
  apply delivers_app in D; simpl in D; symmetry; exact D.
Qed.

Lemma fetch_n_ParseNext (n : nat) (p : LP) :
  fetch_n n (ParseNext p) = ParseNext (fetch_n n p).
Proof. rewrite <- fetch_n_succ_r; reflexivity. Qed.

End Delivery.

(** The loop of the skip algorithm, for any stop test that holds at depth 0
    and fails at every positive depth. *)
Section SkipLoop.
Context {R : Type} {ES : EventSource R}.
Local Abbreviation LP := (LookaheadParser R).
Variable stop : Z -> bool.
Hypothesis stop_zero : stop 0 = true.
Hypothesis stop_positive : forall d, 0 < d -> stop d = false.

Lemma skip_until_step (fuel : nat) (d : Z) (p : LP) :
  st_ p <> kError ->
  skip_until stop (S fuel) d p =
  if stop (d + depth_change (st_ p)) then Some (ParseNext p)
  else skip_until stop fuel (d + depth_change (st_ p)) (ParseNext p).
Proof.
  intro N; apply state_eqb_neq in N; cbn [skip_until]; rewrite N; reflexivity.
Qed.

Lemma skips_nil : skips stop [].
Proof. intros d fuel p r' Hd D; reflexivity. Qed.

Lemma skips_app (es1 es2 : list Event) :
  skips stop es1 -> skips stop es2 -> skips stop (es1 ++ es2).
Proof.
  intros S1 S2 d fuel p r' Hd D.
  destruct (delivers_prefix es1 es2 _ _ D) as [rm D1].
  apply delivers_app in D.
  rewrite length_app, <- Nat.add_assoc, (S1 d _ p rm Hd D1).
  rewrite fetch_n_ParseNext, (S2 d fuel _ r' Hd D).
  rewrite fetch_n_add, (fetch_n_ParseNext (List.length es1)); reflexivity.
Qed.

Lemma skips_flat_map {A : Type} (f : A -> list Event) (l : list A) :
  Forall (fun a => skips stop (f a)) l -> skips stop (flat_map f l).
Proof.
  induction 1 as [|a l Ha Hl IH]; [apply skips_nil|].
  cbn [flat_map]; apply skips_app; assumption.
Qed.

(** A scalar or a key: one fetch, the depth unchanged. *)
Lemma skips_flat (e : Event) :
  depth_change (token_state e) = 0 -> token_state e <> kError -> skips stop [e].
Proof.
  intros Z0 N d fuel p r' Hd D.
  destruct (delivers_step p e [] r' D) as [S _].
  cbn [List.length Nat.add]; rewrite skip_until_step by (rewrite S; exact N).
  rewrite S, Z0, Z.add_0_r, (stop_positive d Hd); reflexivity.
Qed.

(** A container: its opening event, a body that is skipped, its closing
    event. *)
Lemma skips_bracket (opening closing : Event) (body : list Event) :
  depth_change (token_state opening) = 1 ->
  depth_change (token_state closing) = -1 ->
  skips stop body -> skips stop (opening :: body ++ [closing]).
Proof.
  intros Ho Hc Sb d fuel p r' Hd D.
  destruct (delivers_step p opening _ r' D) as [So [_ D1]].
  destruct (delivers_prefix body [closing] _ _ D1) as [rm Db].
  apply delivers_app in D1.
  destruct (delivers_step _ closing [] r' D1) as [Sc _].
  cbn [List.length Nat.add]; rewrite length_app; cbn [List.length].
  rewrite skip_until_step by (rewrite So; intro X; rewrite X in Ho; discriminate Ho).
  rewrite So, Ho, (stop_positive (d + 1)) by lia.
  rewrite <- Nat.add_assoc, (Sb (d + 1) _ (ParseNext p) rm) by (lia || exact Db).
  rewrite fetch_n_ParseNext; cbn [Nat.add].
  rewrite skip_until_step by (rewrite Sc; intro X; rewrite X in Hc; discriminate Hc).
  rewrite Sc, Hc; replace (d + 1 + -1) with d by lia.
  rewrite (stop_positive d Hd).
  rewrite Nat.add_1_r, (fetch_n_succ_r (S (List.length body))).
  rewrite <- (fetch_n_ParseNext (List.length body)); reflexivity.
Qed.

Lemma skips_events (j : Json) : skips stop (events j).
Proof.
  induction j as [ |b|n|s|l IH|l IH] using Json_ind.
  - apply skips_flat; [reflexivity|discriminate].
  - apply skips_flat; [reflexivity|discriminate].
  - destruct n; apply skips_flat; try reflexivity; discriminate.
  - apply skips_flat; [reflexivity|discriminate].
  - apply (skips_bracket EvStartArray (EvEndArray _)); try reflexivity.
    apply skips_flat_map; exact IH.
  - apply (skips_bracket EvStartObject (EvEndObject _)); try reflexivity.
    apply skips_flat_map.
    apply Forall_impl with (2 := IH); intros [k v] Hv.
    apply (skips_app [EvKey k false]); [|exact Hv].
    apply skips_flat; [reflexivity|discriminate].
Qed.

(** The body of a container, then its closing event, from depth 1: the loop
    stops right after the closing event. *)
Lemma skip_until_rest (body : list Event) (closing : Event) (fuel : nat)
  (p : LP) (r' : R) :
  depth_change (token_state closing) = -1 -> skips stop body ->
  delivers (r_ p) (body ++ [closing]) r' ->
  skip_until stop (List.length body + S fuel) 1 (ParseNext p) =
  Some (fetch_n (S (List.length body)) (ParseNext p)).
Proof.
  intros Hc Sb D.
  destruct (delivers_prefix body [closing] _ _ D) as [rm Db].
  apply delivers_app in D.
  destruct (delivers_step _ closing [] r' D) as [Sc _].
  rewrite (Sb 1 _ p rm) by (lia || exact Db).
  rewrite fetch_n_ParseNext.
  rewrite skip_until_step by (rewrite Sc; intro X; rewrite X in Hc; discriminate Hc).
  rewrite Sc, Hc; change (1 + -1) with 0; rewrite stop_zero.
  rewrite <- fetch_n_ParseNext; reflexivity.
Qed.

Lemma skips_elements (l : list Json) : skips stop (flat_map events l).
Proof. apply skips_flat_map, Forall_forall; intros v _; apply skips_events. Qed.

Lemma skips_members (l : list (string * Json)) :
  skips stop (flat_map (fun m => let '(k, v) := m in EvKey k false :: events v) l).
Proof.
  apply skips_flat_map, Forall_forall; intros [k v] _.
  apply (skips_app [EvKey k false]); [|apply skips_events].
  apply skips_flat; [reflexivity|discriminate].
Qed.

(** A value whose first token is buffered, from depth 0: the loop stops
    right after the last event of the value. *)
Lemma skip_until_value (j : Json) (fuel : nat) (q : LP) (r' : R) :
  st_ q = token_state (first_event j) ->
  delivers (r_ q) (rest_events j) r' ->
  skip_until stop (List.length (events j) + fuel) 0 q =
  Some (fetch_n (List.length (events j)) q).
Proof.
  intros S D.
  assert (flat : depth_change (token_state (first_event j)) = 0 ->
                 token_state (first_event j) <> kError ->
                 List.length (events j) = 1%nat ->
                 skip_until stop (List.length (events j) + fuel) 0 q =
                 Some (fetch_n (List.length (events j)) q)).
  { intros Z0 N ->; cbn [Nat.add].
    rewrite skip_until_step by (rewrite S; exact N).
    rewrite S, Z0, Z.add_0_r, stop_zero; reflexivity. }
  assert (bracket : forall closing body,
            depth_change (token_state (first_event j)) = 1 ->
            depth_change (token_state closing) = -1 ->
            rest_events j = body ++ [closing] -> skips stop body ->
            skip_until stop (List.length (events j) + fuel) 0 q =
            Some (fetch_n (List.length (events j)) q)).
  { intros closing body Ho Hc Hr Sb.
    rewrite (events_first_rest j), Hr in *.
    cbn [List.length Nat.add]; rewrite length_app; cbn [List.length].
    rewrite skip_until_step by (rewrite S; intro X; rewrite X in Ho; discriminate Ho).
    rewrite S, Ho, (stop_positive (0 + 1)) by lia.
    change (0 + 1) with 1; rewrite <- Nat.add_assoc; cbn [Nat.add].
    rewrite (skip_until_rest body closing fuel q r' Hc Sb D).
    rewrite Nat.add_1_r, <- fetch_n_succ_r; reflexivity. }
  destruct j as [ |b|n|s|l|l].
  - apply flat; [reflexivity|discriminate|reflexivity].
  - apply flat; [reflexivity|discriminate|reflexivity].
  - apply flat; [destruct n; reflexivity|destruct n; discriminate|reflexivity].
  - apply flat; [reflexivity|discriminate|reflexivity].
  - apply (bracket (EvEndArray (Z.of_nat (List.length l))) (flat_map events l));
      try reflexivity; apply skips_elements.
  - apply (bracket (EvEndObject (Z.of_nat (List.length l)))
             (flat_map (fun m => let '(k, v) := m in EvKey k false :: events v) l));
      try reflexivity; apply skips_members.
Qed.

(** A container that has just been entered, from depth 1: the loop stops
    right after the closing event. *)
Lemma skip_until_entered (j : Json) (fuel : nat) (q : LP) (r' : R) :
  depth_change (token_state (first_event j)) = 1 ->
  delivers (r_ q) (rest_events j) r' ->
  skip_until stop (List.length (events j) + fuel) 1 (ParseNext q) =
  Some (fetch_n (List.length (events j)) q).
Proof.
  intros Ho D.
  assert (bracket : forall closing body,
            depth_change (token_state closing) = -1 ->
            rest_events j = body ++ [closing] -> skips stop body ->
            skip_until stop (List.length (events j) + fuel) 1 (ParseNext q) =
            Some (fetch_n (List.length (events j)) q)).
  { intros closing body Hc Hr Sb.
    rewrite (events_first_rest j), Hr in *.
    cbn [List.length]; rewrite length_app; cbn [List.length].
    replace (S (List.length body + 1) + fuel)%nat
      with (List.length body + S (S fuel))%nat by lia.
    rewrite (skip_until_rest body closing (S fuel) q r' Hc Sb D).
    rewrite Nat.add_1_r, <- fetch_n_succ_r; reflexivity. }
  destruct j as [ |b|n|s|l|l]; try discriminate Ho.
  - destruct n; discriminate Ho.
  - apply (bracket (EvEndArray (Z.of_nat (List.length l))) (flat_map events l));
      try reflexivity; apply skips_elements.
  - apply (bracket (EvEndObject (Z.of_nat (List.length l)))
             (flat_map (fun m => let '(k, v) := m in EvKey k false :: events v) l));
      try reflexivity; apply skips_members.
Qed.

End SkipLoop.

Section Skip.
Context {R : Type} {ES : EventSource R}.
Local Abbreviation LP := (LookaheadParser R).

(** [SkipOut] is the loop of the skip algorithm that stops once the depth is
    no longer positive. *)
Lemma SkipOut_skip_until (fuel : nat) (depth : Z) (p : LP) :
  SkipOut fuel depth p = skip_until (fun d => d <=? 0) fuel depth p.
Proof.
  revert depth p; induction fuel as [|fuel IH]; intros depth p; [reflexivity|].
  cbn [SkipOut skip_until]; unfold depth_change.
  destruct (st_ p);
    cbn [state_eqb state_index Z.eqb Pos.eqb orb fst snd]; try reflexivity;
    unfold Z.sub; cbn [Z.opp]; rewrite Z.gtb_ltb, Z.ltb_antisym, ?Z.add_0_r;
    match goal with |- context [?d <=? 0] => destruct (d <=? 0) end;
    cbn [negb]; try reflexivity; apply IH.
Qed.

Lemma leb_stop_positive (d : Z) : 0 < d -> (d <=? 0) = false.
Proof. intro H; apply Z.leb_gt; exact H. Qed.

Lemma eqb_stop_positive (d : Z) : 0 < d -> (d =? 0) = false.
Proof. intro H; apply Z.eqb_neq; lia. Qed.

Lemma SkipValue_scalar (fuel : nat) (p : LP) :
  scalar_state (st_ p) = true ->
  SkipValue (S fuel) p = Some (ParseNext p) /\
  skip_algorithm (S fuel) 0 p = Some (ParseNext p).
Proof.
  intro S; unfold SkipValue, skip_algorithm; rewrite SkipOut_skip_until.
  rewrite !skip_until_step by (intro X; rewrite X in S; discriminate S).
  replace (depth_change (st_ p)) with 0 by (destruct (st_ p); try discriminate S; reflexivity).
  split; reflexivity.
Qed.

Lemma le_split (n m : nat) : (n <= m)%nat -> m = (n + (m - n))%nat.
Proof. lia. Qed.

End Skip.

(** C4: the skips follow the depth-counter algorithm.  Let the parser
    buffer the first token of a JSON value [j], nested as deep as one likes,
    and let the reader be about to deliver the rest of [j] and then an event
    [nx].  Then SkipValue, given the iterations the value needs, terminates
    after as many fetches as [j] has events: the buffered token is [nx], the
    sibling that follows the value.  The algorithm as the spec words it
    (start at depth 0, stop when the depth reaches 0) ends in the same
    parser.  Entering the container and skipping its rest with SkipArray or
    SkipObject (start at depth 1) ends there too.  On a scalar or key token
    SkipValue performs exactly one fetch, whatever the reader delivers; in
    [kError] it returns at once and changes nothing. *)
Theorem SkipValue_lands_on_next_sibling
  (R : Type) (ES : EventSource R) (j : Json) (nx : Event) (fuel : nat)
  (q : LookaheadParser R) (r' : R) :
  st_ q = token_state (first_event j) ->
  delivers (r_ q) (rest_events j ++ [nx]) r' ->
  (List.length (events j) <= fuel)%nat ->
  SkipValue fuel q = Some (fetch_n (List.length (events j)) q) /\
  st_ (fetch_n (List.length (events j)) q) = token_state nx /\
  r_ (fetch_n (List.length (events j)) q) = r' /\
  fetches (fetch_n (List.length (events j)) q) =
    (List.length (events j) + fetches q)%nat /\
  skip_algorithm fuel 0 q = SkipValue fuel q /\
  (forall l, j = JArray l ->
     EnterArray q = (true, ParseNext q) /\
     SkipArray fuel (ParseNext q) = Some (fetch_n (List.length (events j)) q) /\
     skip_algorithm fuel 1 (ParseNext q) = SkipArray fuel (ParseNext q)) /\
  (forall l, j = JObject l ->
     EnterObject q = (true, ParseNext q) /\
     SkipObject fuel (ParseNext q) = Some (fetch_n (List.length (events j)) q) /\
     skip_algorithm fuel 1 (ParseNext q) = SkipObject fuel (ParseNext q)) /\
  (forall (p : LookaheadParser R) (k : nat),
     scalar_state (st_ p) = true ->
     SkipValue (S k) p = Some (ParseNext p) /\
     skip_algorithm (S k) 0 p = Some (ParseNext p) /\
     fetches (ParseNext p) = S (fetches p)) /\
  (forall (p : LookaheadParser R) (k : nat),
     st_ p = kError ->
     SkipValue (S k) p = Some p /\ skip_algorithm (S k) 0 p = Some p).
Proof.
  intros S D F.
  destruct (delivers_prefix (rest_events j) [nx] _ _ D) as [rm Dj].
  pose proof (delivers_end _ _ _ D) as Dend.
  pose proof (delivers_app _ _ _ _ D) as Dnx.
  destruct (delivers_step _ nx [] r' Dnx) as [Snx _].
  rewrite length_app, Nat.add_1_r in Dend.
  assert (L : List.length (events j) = Datatypes.S (List.length (rest_events j)))
    by (rewrite (events_first_rest j) at 1; reflexivity).
  change (ParseNext (fetch_n (List.length (rest_events j)) q))
    with (fetch_n (Datatypes.S (List.length (rest_events j))) q) in Snx.
  rewrite <- L in Dend, Snx.
  pose proof (skip_until_value _ eq_refl leb_stop_positive j
                (fuel - List.length (events j)) q rm S Dj) as V.
  pose proof (skip_until_value _ eq_refl eqb_stop_positive j
                (fuel - List.length (events j)) q rm S Dj) as V'.
  rewrite <- (le_split _ _ F) in V, V'.
  unfold SkipValue, skip_algorithm; rewrite SkipOut_skip_until, V, V'.
  split_ands; try reflexivity; try assumption.
  - apply fetches_fetch_n.
  - intros l ->; unfold EnterArray, SkipArray; rewrite S, SkipOut_skip_until.
    pose proof (skip_until_entered _ eq_refl leb_stop_positive (JArray l)
                  (fuel - List.length (events (JArray l))) q rm eq_refl Dj) as W.
    pose proof (skip_until_entered _ eq_refl eqb_stop_positive (JArray l)
                  (fuel - List.length (events (JArray l))) q rm eq_refl Dj) as W'.
    rewrite <- (le_split _ _ F) in W, W'; rewrite W, W'; repeat split.
  - intros l ->; unfold EnterObject, SkipObject; rewrite S, SkipOut_skip_until.
    pose proof (skip_until_entered _ eq_refl leb_stop_positive (JObject l)
                  (fuel - List.length (events (JObject l))) q rm eq_refl Dj) as W.
    pose proof (skip_until_entered _ eq_refl eqb_stop_positive (JObject l)
                  (fuel - List.length (events (JObject l))) q rm eq_refl Dj) as W'.
    rewrite <- (le_split _ _ F) in W, W'; rewrite W, W'; repeat split.
  - intros p k Sp; destruct (SkipValue_scalar k p Sp) as [A B].
    split_ands; [exact A|exact B|apply fetches_ParseNext].
  - intros p k E; rewrite SkipOut_skip_until.
    cbn [skip_until]; rewrite E; split; reflexivity.
Qed.

(** ** The invariant of reachable parsers *)

Section Invariant.
Context {R : Type} {ES : EventSource R}.
Local Abbreviation LP := (LookaheadParser R).

Lemma coherent_SkipOut (fuel : nat) (depth : Z) (p q : LP) :
  coherent p -> SkipOut fuel depth p = Some q -> coherent q.
Proof.
  revert depth p; induction fuel as [|fuel IH]; intros depth p C H;
    [discriminate H|].
  cbn [SkipOut] in H.
  destruct (state_eqb (st_ p) kEnteringArray || state_eqb (st_ p) kEnteringObject);
    [|destruct (state_eqb (st_ p) kExitingArray || state_eqb (st_ p) kExitingObject);
      [|destruct (state_eqb (st_ p) kError)]];
    cbn iota beta in H;
    try (injection H as <-; exact C);
    match type of H with
    | (if ?c then _ else _) = _ => destruct c
    end;
    try (injection H as <-; apply coherent_ParseNext; exact C);
    apply (IH _ _ (coherent_ParseNext p C) H).
Qed.

(** Every call keeps [coherent]: on a parser made by the constructor and
    driven through the public methods, each getter of [Value] meets a value
    of its kind. *)
Lemma coherent_call (fuel : nat) (o : Op) (p q : LP) (res : Ret) :
  coherent p -> call fuel o p = Some (res, q) -> coherent q.
Proof.
  intros C H; destruct o; cbn [call] in H;
    unfold returning, EnterObject, EnterArray, NextObjectKey, NextArrayValue,
      GetInt, GetDouble, GetString, GetBool, GetNull, PeekValue, PeekType,
      IsValid, SkipObject, SkipArray, SkipValue, option_map in H;
    repeat match type of H with
           | context [if ?c then _ else _] => destruct c
           end;
    try (cbn [fst snd] in H; injection H as _ <-;
         first [exact C | apply coherent_ParseNext; exact C | exact I]).
  all: match type of H with
       | context [SkipOut ?f ?d ?x] =>
           destruct (SkipOut f d x) as [q'|] eqn:E; [|discriminate H];
           injection H as _ <-; apply (coherent_SkipOut f d x q' C E)
       end.
Qed.

Lemma coherent_run (fuel : nat) (ops : list Op) (p q : LP) (rs : list Ret) :
  coherent p -> run fuel ops p = Some (rs, q) -> coherent q.
Proof.
  revert p rs; induction ops as [|o ops IH]; intros p rs C H; cbn [run] in H.
  - injection H as _ <-; exact C.
  - destruct (call fuel o p) as [[res p']|] eqn:E; [|discriminate H].
    destruct (run fuel ops p') as [[rs' q']|] eqn:E'; [|discriminate H].
    injection H as _ <-; apply (IH p' rs'); [|exact E'].
    apply (coherent_call fuel o p p' res C E).
Qed.

(** Whatever is called on a freshly constructed parser, the parser stays
    coherent. *)
Lemma coherent_reachable (fuel : nat) (ops : list Op) (fresh : R) (q : LP)
  (rs : list Ret) :
  run fuel ops (LookaheadParser_new fresh) = Some (rs, q) -> coherent q.
Proof. apply coherent_run, coherent_new. Qed.

End Invariant.

(** * The scenarios, run *)

(** The scenario of the spec on [{"a":1,"b":[true,null]}]: the calls, what
    they return, and a parser that is valid at the end. *)
Example scenario_run :
  run 1
    [OpEnterObject; OpNextObjectKey; OpGetInt; OpNextObjectKey; OpPeekType;
     OpEnterArray; OpNextArrayValue; OpGetBool; OpNextArrayValue; OpGetNull;
     OpNextArrayValue; OpNextObjectKey; OpIsValid] parser_scenario =
  Some
    ([RetBool true; RetStr (Some "a"%string); RetInt 1; RetStr (Some "b"%string);
      RetInt (Type_to_int kArrayType); RetBool true; RetBool true; RetBool true;
      RetBool true; RetVoid; RetBool false; RetStr None; RetBool true],
     mkHandler VNull kExitingObject (mkScript [] false) 10%nat).
Proof. reflexivity. Qed.

(** On [{"a":}] a second NextObjectKey returns the stale key once more, and
    only then is the parser in [kError]. *)
Example stale_key_returned_twice :
  NextObjectKey parser_after_key = (Some "a"%string, ParseNext parser_after_key) /\
  st_ (ParseNext parser_after_key) = kError.
Proof. split; reflexivity. Qed.

(** An integer beyond the range of [int] is no int for GetInt, and is a
    number for GetDouble. *)
Example GetInt_out_of_range :
  GetInt (LookaheadParser_new (script [Emit (EvUint 2147483648)])) =
    (0, set_st kError (LookaheadParser_new (script [Emit (EvUint 2147483648)]))) /\
  fst (GetDouble (LookaheadParser_new (script [Emit (EvUint 2147483648)]))) =
    2147483648%float.
Proof. split; reflexivity. Qed.

(** Outside the cases above the two loops part: on a closing token
    SkipValue stops after one fetch, its depth being negative, while a loop
    that waits for depth 0 runs on. *)
Example SkipValue_on_closing_token :
  st_ parser_array_end = kExitingArray /\
  SkipValue 1 parser_array_end = Some (ParseNext parser_array_end) /\
  skip_algorithm 16 0 parser_array_end = None.
Proof. repeat split. Qed.

(** Witness of [Error_is_absorbing]: after a failed GetString, all fifteen
    calls in a row. *)
Lemma Error_is_absorbing_witness :
  st_ parser_failed = kError /\
  run 1 all_ops parser_failed = Some (map sentinel all_ops, parser_failed).
Proof.
  split; [reflexivity|].
  exact (Error_is_absorbing 0 all_ops parser_failed eq_refl).
Defined.

(** Witness of [NextArrayValue_cases]: at the end of the array, at a key, at
    a number. *)
Lemma NextArrayValue_cases_witness :
  NextArrayValue parser_array_end = (false, ParseNext parser_array_end) /\
  NextArrayValue parser_at_key = (false, set_st kError parser_at_key) /\
  NextArrayValue parser_42 = (true, parser_42).
Proof.
  split_ands.
  - exact (proj1 (NextArrayValue_cases parser_array_end) eq_refl).
  - apply (proj1 (proj2 (NextArrayValue_cases parser_at_key))).
    right; right; reflexivity.
  - apply (proj2 (proj2 (NextArrayValue_cases parser_42))); discriminate.
Defined.

(** Witness of [NextObjectKey_cases]: at a key, at the end of the object, at
    a number. *)
Lemma NextObjectKey_cases_witness :
  NextObjectKey parser_at_key = (Some "a"%string, ParseNext parser_at_key) /\
  NextObjectKey parser_object_end = (None, ParseNext parser_object_end) /\
  NextObjectKey parser_42 = (None, set_st kError parser_42).
Proof.
  split_ands.
  - exact (proj1 (proj2 (NextObjectKey_cases parser_at_key)) "a"%string
             eq_refl eq_refl).
  - exact (proj1 (proj2 (proj2 (NextObjectKey_cases parser_object_end)))
             eq_refl).
  - apply (proj2 (proj2 (proj2 (NextObjectKey_cases parser_42))));
      discriminate.
Defined.

(** Witness of [violation_only_sets_Error]: a getter of the wrong kind, a
    GetInt on a double, an EnterArray on a key. *)
Lemma violation_only_sets_Error_witness :
  call 0 OpGetString parser_42 = Some (RetStr None, set_st kError parser_42) /\
  call 0 OpGetInt parser_3_14 = Some (RetInt 0, set_st kError parser_3_14) /\
  call 0 OpEnterArray parser_at_key =
    Some (RetBool false, set_st kError parser_at_key).
Proof.
  split_ands.
  - exact (proj1 (violation_only_sets_Error 0 OpGetString parser_42 eq_refl)).
  - exact (proj1 (violation_only_sets_Error 0 OpGetInt parser_3_14 eq_refl)).
  - exact (proj1 (violation_only_sets_Error 0 OpEnterArray parser_at_key eq_refl)).
Defined.

(** Witness of [error_shows_one_fetch_late]: the syntax error of [{"a":}],
    a rejected raw number, and the text after the root value of [{} x]; the
    empty document for the constructor. *)
Lemma error_shows_one_fetch_late_witness :
  (st_ (ParseNext parser_at_key) = kHasKey /\
   v_ (ParseNext parser_at_key) = VString "a" /\
   fst (IsValid (ParseNext parser_at_key)) = true /\
   st_ (ParseNext (ParseNext parser_at_key)) = kError) /\
  (st_ (ParseNext handler_raw) = kInit /\
   HasParseError (r_ (ParseNext handler_raw)) = true /\
   st_ (ParseNext (ParseNext handler_raw)) = kError) /\
  (st_ (ParseNext parser_trailing) = kExitingObject /\
   fst (IsValid (ParseNext parser_trailing)) = true /\
   st_ (ParseNext (ParseNext parser_trailing)) = kError) /\
  (st_ parser_empty = kInit /\ fst (IsValid parser_empty) = true).
Proof.
  destruct (error_shows_one_fetch_late Script Script_EventSource parser_at_key doc_empty
              eq_refl eq_refl) as [A [B [_ [C [_ E]]]]].
  destruct (error_shows_one_fetch_late Script Script_EventSource handler_raw doc_empty
              eq_refl eq_refl) as [_ [B' [_ [C' _]]]].
  destruct (error_shows_one_fetch_late Marked Marked_EventSource parser_trailing
              doc_trailing eq_refl eq_refl) as [A'' [_ [T'' [C'' _]]]].
  split_ands.
  - apply B; left; reflexivity.
  - apply B; left; reflexivity.
  - apply A; discriminate.
  - exact C.
  - apply B'; right; exists "1e5"%string, false; reflexivity.
  - reflexivity.
  - exact C'.
  - apply (T'' (EvEndObject 0)); reflexivity.
  - apply A''; discriminate.
  - exact C''.
  - apply E; reflexivity.
  - apply E; reflexivity.
Defined.

(** Witness of [SkipValue_lands_on_next_sibling]: a value nested 20 deep,
    arrays and objects in turn, is skipped in 91 fetches and the string that
    follows it is buffered. *)
Lemma SkipValue_lands_on_next_sibling_witness :
  nesting deep = 20%nat /\
  SkipValue 91 parser_deep = Some (fetch_n 91 parser_deep) /\
  st_ (fetch_n 91 parser_deep) = kHasString /\
  v_ (fetch_n 91 parser_deep) = VString "next" /\
  fetches (fetch_n 91 parser_deep) = 92%nat.
Proof.
  assert (D : delivers (r_ parser_deep) (rest_events deep ++ [EvString "next" false])
                (mkScript [] false))
    by (vm_compute; repeat split).
  destruct (SkipValue_lands_on_next_sibling Script Script_EventSource deep
              (EvString "next" false) 91 parser_deep (mkScript [] false)
              eq_refl D
              (Nat.le_refl 91 : (List.length (events deep) <= 91)%nat))
    as [A [B [_ [F _]]]].
  split_ands; [reflexivity|exact A|exact B|reflexivity|exact F].
Defined.

(** * Further properties of the adapter *)

(** ** Recursive descent *)

Section Descent.
Context {R : Type} {ES : EventSource R}.
Local Abbreviation LP := (LookaheadParser R).

Lemma run_app (fuel : nat) (ops1 ops2 : list Op) (p : LP) :
  run fuel (ops1 ++ ops2) p =
  match run fuel ops1 p with
  | Some (rs1, q) =>
      match run fuel ops2 q with
      | Some (rs2, q') => Some (rs1 ++ rs2, q')
      | None => None
      end
  | None => None
  end.
Proof.
  revert p; induction ops1 as [|o ops1 IH]; intro p.
  - cbn [app run]; destruct (run fuel ops2 p) as [[rs q]|]; reflexivity.
  - cbn [app run]; destruct (call fuel o p) as [[res p']|]; [|reflexivity].
    rewrite IH; destruct (run fuel ops1 p') as [[rs1 q]|]; [|reflexivity].
    destruct (run fuel ops2 q) as [[rs2 q']|]; reflexivity.
Qed.

Lemma reads_nil (fuel : nat) : reads fuel [] [] [].
Proof. intros p r' D; reflexivity. Qed.

Lemma reads_app (fuel : nat) (ops1 ops2 : list Op) (rs1 rs2 : list Ret)
  (es1 es2 : list Event) :
  reads fuel ops1 rs1 es1 -> reads fuel ops2 rs2 es2 ->
  reads fuel (ops1 ++ ops2) (rs1 ++ rs2) (es1 ++ es2).
Proof.
  intros R1 R2 p r' D.
  destruct (delivers_prefix es1 es2 _ _ D) as [rm D1].
  apply delivers_app in D.
  rewrite run_app, (R1 p rm D1), fetch_n_ParseNext, (R2 _ r' D).
  rewrite length_app, fetch_n_add, (fetch_n_ParseNext (List.length es1)).
  reflexivity.
Qed.

Lemma reads_flat_map {A : Type} (fuel : nat) (fo : A -> list Op)
  (fr : A -> list Ret) (fe : A -> list Event) (l : list A) :
  Forall (fun a => reads fuel (fo a) (fr a) (fe a)) l ->
  reads fuel (flat_map fo l) (flat_map fr l) (flat_map fe l).
Proof.
  induction 1 as [|a l Ha Hl IH]; [apply reads_nil|].
  cbn [flat_map]; apply reads_app; assumption.
Qed.

(** One call that consumes one event. *)
Lemma reads_one (fuel : nat) (o : Op) (a : Ret) (e : Event) :
  (forall (q : LP) (v0 : Value),
     st_ q = token_state e -> v_ q = value_of e v0 ->
     call fuel o q = Some (a, ParseNext q)) ->
  reads fuel [o] [a] [e].
Proof.
  intros C p r' D; destruct (delivers_step p e [] r' D) as [S [V _]].
  cbn [run]; rewrite (C (ParseNext p) (v_ p) S V); reflexivity.
Qed.

(** [NextArrayValue] before a value: true, and the value still to read. *)
Lemma reads_next (fuel : nat) (ops : list Op) (rs : list Ret) (j : Json) :
  reads fuel ops rs (events j) ->
  reads fuel (OpNextArrayValue :: ops) (RetBool true :: rs) (events j).
Proof.
  intros Rd p r' D; pose proof (Rd p r' D) as E.
  rewrite (events_first_rest j) in D.
  destruct (delivers_step p _ _ r' D) as [S _].
  cbn [run call]; unfold returning, NextArrayValue; rewrite S.
  replace (state_eqb (token_state (first_event j)) kExitingArray) with false
    by (destruct j as [ | |n| | | ]; try reflexivity; destruct n; reflexivity).
  replace (state_eqb (token_state (first_event j)) kError
           || state_eqb (token_state (first_event j)) kExitingObject
           || state_eqb (token_state (first_event j)) kHasKey) with false
    by (destruct j as [ | |n| | | ]; try reflexivity; destruct n; reflexivity).
  cbn [fst snd]; rewrite E; reflexivity.
Qed.

Lemma reads_number (fuel : nat) (n : Number) :
  reads fuel [number_op n] [number_answer n] [number_event n].
Proof.
  apply reads_one; intros q v0 S V.
  assert (V' : v_ q = VNumber n) by (rewrite V; destruct n; reflexivity).
  assert (S' : st_ q = kHasNumber) by (rewrite S; destruct n; reflexivity).
  unfold number_op, number_answer.
  destruct (Value_IsInt (VNumber n)) eqn:I; cbn [call]; unfold returning.
  - rewrite GetInt_ok by (rewrite ?V'; assumption); rewrite V'; reflexivity.
  - rewrite GetDouble_ok by exact S'; rewrite V'; reflexivity.
Qed.

Lemma reads_events_closing :
  forall fuel,
    (forall n, reads fuel [OpNextArrayValue] [RetBool false] [EvEndArray n]) /\
    (forall n, reads fuel [OpNextObjectKey] [RetStr None] [EvEndObject n]) /\
    reads fuel [OpEnterArray] [RetBool true] [EvStartArray] /\
    reads fuel [OpEnterObject] [RetBool true] [EvStartObject] /\
    (forall k c, reads fuel [OpNextObjectKey] [RetStr (Some k)] [EvKey k c]).
Proof.
  intro fuel; split_ands; intros; apply reads_one; intros q v0 S V;
    cbn [call]; unfold returning, NextArrayValue, NextObjectKey, EnterArray,
      EnterObject; rewrite S; cbn [token_state state_of]; try reflexivity.
  cbn [state_eqb state_index Z.eqb Pos.eqb]; rewrite V; reflexivity.
Qed.

Lemma reads_array (fuel : nat) (l : list Json) (body : list Op)
  (rs : list Ret) :
  reads fuel body rs (flat_map events l) ->
  reads fuel (OpEnterArray :: body ++ [OpNextArrayValue])
    (RetBool true :: rs ++ [RetBool false]) (events (JArray l)).
Proof.
  intro B; destruct (reads_events_closing fuel) as [Ea [_ [Sa _]]].
  apply (reads_app fuel [OpEnterArray] _ [RetBool true] _ [EvStartArray]);
    [exact Sa|].
  apply reads_app; [exact B|apply Ea].
Qed.

Lemma reads_object (fuel : nat) (l : list (string * Json)) (body : list Op)
  (rs : list Ret) :
  reads fuel body rs (member_events l) ->
  reads fuel (OpEnterObject :: body ++ [OpNextObjectKey])
    (RetBool true :: rs ++ [RetStr None]) (events (JObject l)).
Proof.
  intro B; destruct (reads_events_closing fuel) as [_ [Eo [_ [So _]]]].
  apply (reads_app fuel [OpEnterObject] _ [RetBool true] _ [EvStartObject]);
    [exact So|].
  apply reads_app; [exact B|apply Eo].
Qed.

Lemma reads_member (fuel : nat) (k : string) (v : Json) (ops : list Op)
  (rs : list Ret) :
  reads fuel ops rs (events v) ->
  reads fuel (OpNextObjectKey :: ops) (RetStr (Some k) :: rs)
    (EvKey k false :: events v).
Proof.
  intro B; destruct (reads_events_closing fuel) as [_ [_ [_ [_ Ek]]]].
  apply (reads_app fuel [OpNextObjectKey] _ [RetStr (Some k)] _ [EvKey k false]);
    [apply Ek|exact B].
Qed.

Lemma reads_scalars (fuel : nat) :
  reads fuel [OpGetNull] [RetVoid] [EvNull] /\
  (forall b, reads fuel [OpGetBool] [RetBool b] [EvBool b]) /\
  (forall s c, reads fuel [OpGetString] [RetStr (Some s)] [EvString s c]).
Proof.
  split_ands; intros; apply reads_one; intros q v0 S V;
    cbn [call]; unfold returning, GetNull, GetBool, GetString;
    rewrite S, ?V; reflexivity.
Qed.

Lemma reads_visit (fuel : nat) (j : Json) :
  reads fuel (visit j) (answers j) (events j).
Proof.
  destruct (reads_scalars fuel) as [Hn [Hb Hs]].
  induction j as [ |b|n|s|l IH|l IH] using Json_ind.
  - exact Hn.
  - apply Hb.
  - apply reads_number.
  - apply Hs.
  - apply reads_array, reads_flat_map.
    apply Forall_impl with (2 := IH); intros v Hv; apply reads_next; exact Hv.
  - apply reads_object.
    apply (reads_flat_map fuel
             (fun m => let '(_, v) := m in OpNextObjectKey :: visit v)
             (fun m => let '(k, v) := m in RetStr (Some k) :: answers v)
             (fun m => let '(k, v) := m in EvKey k false :: events v)).
    apply Forall_impl with (2 := IH); intros [k v] Hv.
    apply reads_member; exact Hv.
Qed.

(** [SkipValue] on the first token of a value, in the same terms. *)
Lemma reads_skip (fuel : nat) (j : Json) :
  (List.length (events j) <= fuel)%nat ->
  reads fuel [OpSkipValue] [RetVoid] (events j).
Proof.
  intros F p r' D; pose proof D as D'.
  rewrite (events_first_rest j) in D'.
  destruct (delivers_step p _ _ r' D') as [S [_ D1]].
  cbn [run call]; unfold SkipValue; rewrite SkipOut_skip_until.
  rewrite (le_split _ _ F) at 1.
  rewrite (skip_until_value _ eq_refl leb_stop_positive j _ (ParseNext p) r' S D1).
  reflexivity.
Qed.

Lemma length_flat_map_cons {A : Type} (f : A -> list Event) (a : A)
  (l : list A) :
  List.length (flat_map f (a :: l)) =
  (List.length (f a) + List.length (flat_map f l))%nat.
Proof. cbn [flat_map]; apply length_app. Qed.

Lemma reads_visit_to (n : nat) (fuel : nat) (j : Json) :
  (List.length (events j) <= fuel)%nat ->
  reads fuel (visit_to n j) (answers_to n j) (events j).
Proof.
  destruct (reads_scalars fuel) as [Hn [Hb Hs]].
  revert j; induction n as [|n IH]; intros j F; [apply reads_skip; exact F|].
  destruct j as [ |b|m|s|l|l]; cbn [visit_to answers_to].
  - exact Hn.
  - apply Hb.
  - apply reads_number.
  - apply Hs.
  - apply reads_array.
    assert (B : (List.length (flat_map events l) <= fuel)%nat).
    { rewrite (events_first_rest (JArray l)) in F; cbn [List.length] in F.
      change (rest_events (JArray l))
        with (flat_map events l ++ [EvEndArray (Z.of_nat (List.length l))]) in F.
      rewrite length_app in F; lia. }
    clear F; induction l as [|v l IHl]; [apply reads_nil|].
    rewrite length_flat_map_cons in B.
    cbn [flat_map]; apply reads_app; [|apply IHl; lia].
    apply reads_next, IH; lia.
  - apply reads_object; fold (member_events l).
    assert (B : (List.length (member_events l) <= fuel)%nat).
    { rewrite (events_first_rest (JObject l)) in F; cbn [List.length] in F.
      change (rest_events (JObject l))
        with (member_events l ++ [EvEndObject (Z.of_nat (List.length l))]) in F.
      rewrite length_app in F; lia. }
    clear F; induction l as [|[k v] l IHl]; [apply reads_nil|].
    unfold member_events in *; rewrite length_flat_map_cons in B.
    cbn [List.length] in B.
    cbn [flat_map]; apply reads_app; [|apply IHl; lia].
    apply reads_member, IH; lia.
Qed.

End Descent.

(** ** How a parser becomes invalid, and what a failed reader allows *)

Section Failures.
Context {R : Type} {ES : EventSource R}.
Local Abbreviation LP := (LookaheadParser R).

Lemma ParseNext_Error_inv (p : LP) :
  st_ (ParseNext p) = kError ->
  st_ p = kError \/ HasParseError (r_ (ParseNext p)) = true.
Proof.
  destruct (HasParseError (r_ p)) eqn:E.
  - intros _; right; rewrite (ParseNext_failed p E); exact E.
  - intro H; left.
    destruct (state_eqb (st_ p) kError) eqn:X; [apply state_eqb_eq; exact X|].
    apply state_eqb_neq in X; exfalso.
    apply (ParseNext_keeps_valid p E X H).
Qed.

Lemma SkipOut_Error_inv (fuel : nat) (depth : Z) (p q : LP) :
  SkipOut fuel depth p = Some q -> st_ q = kError ->
  st_ p = kError \/ HasParseError (r_ q) = true.
Proof.
  revert depth p; induction fuel as [|fuel IH]; intros depth p H E;
    [discriminate H|].
  destruct (state_eqb (st_ p) kError) eqn:X; [left; apply state_eqb_eq; exact X|].
  rewrite SkipOut_skip_until in H; apply state_eqb_neq in X.
  rewrite skip_until_step in H by exact X.
  destruct (depth + depth_change (st_ p) <=? 0).
  - injection H as <-; destruct (ParseNext_Error_inv p E) as [A|A];
      [contradiction|right; exact A].
  - rewrite <- SkipOut_skip_until in H.
    destruct (IH _ _ H E) as [A|A]; [|right; exact A].
    destruct fuel as [|fuel]; [discriminate H|].
    rewrite (SkipOut_Error fuel _ _ A) in H; injection H as <-.
    destruct (ParseNext_Error_inv p A) as [B|B];
      [contradiction|right; exact B].
Qed.

(** No spurious error: a call leaves [kError] only if it found it, if it
    was made outside its precondition, or if the reader has failed. *)
Theorem invalid_only_by_misuse_or_reader_error
  (fuel : nat) (o : Op) (p q : LP) (res : Ret) :
  call fuel o p = Some (res, q) -> st_ q = kError ->
  st_ p = kError \/ precondition o p = false \/ HasParseError (r_ q) = true.
Proof.
  intros H E.
  destruct (state_eqb (st_ p) kError) eqn:X; [left; apply state_eqb_eq; exact X|].
  right; apply state_eqb_neq in X.
  destruct (precondition o p) eqn:P; [right|left; reflexivity].
  assert (fetched : q = ParseNext p -> HasParseError (r_ q) = true).
  { intros ->; destruct (ParseNext_Error_inv p E) as [A|A];
      [contradiction|exact A]. }
  assert (skipped : forall d, SkipOut fuel d p = Some q ->
                              HasParseError (r_ q) = true).
  { intros d S; destruct (SkipOut_Error_inv fuel d p q S E) as [A|A];
      [contradiction|exact A]. }
  destruct o; cbn [call precondition] in H, P;
    unfold returning, EnterObject, EnterArray, NextObjectKey, NextArrayValue,
      GetInt, GetDouble, GetString, GetBool, GetNull, PeekValue, PeekType,
      IsValid, SkipObject, SkipArray, SkipValue, option_map in H.
  - rewrite P in H; injection H as _ <-; apply fetched; reflexivity.
  - rewrite P in H; injection H as _ <-; apply fetched; reflexivity.
  - destruct (state_eqb (st_ p) kHasKey) eqn:K.
    + injection H as _ <-; apply fetched; reflexivity.
    + cbn [orb] in P; rewrite P in H; injection H as _ <-.
      apply fetched; reflexivity.
  - destruct (state_eqb (st_ p) kExitingArray) eqn:K.
    + injection H as _ <-; apply fetched; reflexivity.
    + apply negb_true_iff in P; rewrite P in H; injection H as _ <-.
      contradiction.
  - apply andb_prop in P as [P1 P2]; rewrite P1, P2 in H.
    injection H as _ <-; apply fetched; reflexivity.
  - rewrite P in H; injection H as _ <-; apply fetched; reflexivity.
  - rewrite P in H; injection H as _ <-; apply fetched; reflexivity.
  - rewrite P in H; injection H as _ <-; apply fetched; reflexivity.
  - rewrite P in H; injection H as _ <-; apply fetched; reflexivity.
  - destruct (SkipOut fuel 1 p) eqn:S; [|discriminate H].
    injection H as _ <-; apply (skipped 1 S).
  - destruct (SkipOut fuel 1 p) eqn:S; [|discriminate H].
    injection H as _ <-; apply (skipped 1 S).
  - destruct (SkipOut fuel 0 p) eqn:S; [|discriminate H].
    injection H as _ <-; apply (skipped 0 S).
  - destruct (state_leb kHasNull (st_ p) && state_leb (st_ p) kHasKey);
      injection H as _ <-; contradiction.
  - destruct (state_leb kHasNull (st_ p) && state_leb (st_ p) kHasKey);
      [|destruct (state_eqb (st_ p) kEnteringArray);
        [|destruct (state_eqb (st_ p) kEnteringObject)]];
      injection H as _ <-; contradiction.
  - injection H as _ <-; contradiction.
Qed.

(** On a reader that has failed a skip returns within two iterations. *)
Lemma SkipOut_failed (fuel : nat) (depth : Z) (p : LP) :
  HasParseError (r_ p) = true ->
  SkipOut (S (S fuel)) depth p =
  Some (if state_eqb (st_ p) kError then p else set_st kError (tick p)).
Proof.
  intro F; destruct (state_eqb (st_ p) kError) eqn:X.
  - apply SkipOut_Error, state_eqb_eq; exact X.
  - apply state_eqb_neq in X.
    rewrite SkipOut_skip_until, skip_until_step by exact X.
    rewrite (ParseNext_failed p F).
    destruct (depth + depth_change (st_ p) <=? 0); [reflexivity|].
    rewrite <- SkipOut_skip_until; apply SkipOut_Error; reflexivity.
Qed.

(** With a failed reader no skip can hang: SkipValue, SkipArray and
    SkipObject return within two iterations of the loop, in [kError], after
    at most one fetch, and the reader is not called. *)
Theorem skip_returns_on_failed_reader
  (fuel : nat) (depth : Z) (p : LP) :
  HasParseError (r_ p) = true ->
  exists q,
    SkipOut (S (S fuel)) depth p = Some q /\
    st_ q = kError /\ r_ q = r_ p /\ v_ q = v_ p /\
    (fetches q <= S (fetches p))%nat.
Proof.
  intro F; rewrite (SkipOut_failed fuel depth p F).
  destruct (state_eqb (st_ p) kError) eqn:X; eexists; split_ands;
    try reflexivity; try (cbn; lia).
  apply state_eqb_eq; exact X.
Qed.

(** At the end of the document, inside a container: when the reader has
    nothing more to deliver and the buffered token neither opens nor closes
    a container, a skip started at a positive depth (SkipArray, SkipObject)
    returns for no number of iterations. *)
Theorem skip_inside_never_returns_at_end
  (fuel : nat) (depth : Z) (p : LP) :
  exhausted (r_ p) -> 0 < depth ->
  depth_change (st_ p) = 0 -> st_ p <> kError ->
  SkipOut fuel depth p = None.
Proof.
  intros [E N] Hd; revert p E N; induction fuel as [|fuel IH];
    intros p E N Z0 X; [reflexivity|].
  rewrite SkipOut_skip_until, skip_until_step by exact X.
  rewrite Z0, Z.add_0_r, (leb_stop_positive depth Hd), <- SkipOut_skip_until.
  assert (Q : ParseNext p = set_r (r_ p) (tick p)).
  { rewrite ParseNext_silent; unfold emitted, after; rewrite ?N; auto. }
  rewrite Q; apply IH; assumption.
Qed.

Lemma SkipOut_failed_inv (fuel : nat) (depth : Z) (p q : LP) :
  HasParseError (r_ p) = true -> SkipOut fuel depth p = Some q ->
  r_ q = r_ p /\ v_ q = v_ p.
Proof.
  intros F H; destruct fuel as [|[|fuel]]; [discriminate H| |].
  - cbn [SkipOut] in H.
    destruct (state_eqb (st_ p) kEnteringArray || state_eqb (st_ p) kEnteringObject);
      [|destruct (state_eqb (st_ p) kExitingArray || state_eqb (st_ p) kExitingObject);
        [|destruct (state_eqb (st_ p) kError)]];
      cbn iota beta in H;
      try (injection H as <-; split; reflexivity);
      match type of H with (if ?c then _ else _) = _ => destruct c end;
      try discriminate H; injection H as <-;
      rewrite (ParseNext_failed p F); split; reflexivity.
  - rewrite (SkipOut_failed fuel depth p F) in H; injection H as <-.
    destruct (state_eqb (st_ p) kError); split; reflexivity.
Qed.

Lemma call_failed_reader (fuel : nat) (o : Op) (p q : LP) (res : Ret) :
  HasParseError (r_ p) = true -> call fuel o p = Some (res, q) ->
  r_ q = r_ p /\ v_ q = v_ p.
Proof.
  intros F H; pose proof (ParseNext_failed p F) as PN.
  destruct o; cbn [call] in H;
    unfold returning, EnterObject, EnterArray, NextObjectKey, NextArrayValue,
      GetInt, GetDouble, GetString, GetBool, GetNull, PeekValue, PeekType,
      IsValid, SkipObject, SkipArray, SkipValue, option_map in H;
    rewrite ?PN in H;
    repeat match type of H with
           | context [if ?c then _ else _] => destruct c
           end;
    try (cbn [fst snd] in H; injection H as _ <-; split; reflexivity).
  all: match type of H with
       | context [SkipOut ?f ?d ?x] =>
           destruct (SkipOut f d x) as [q'|] eqn:E; [|discriminate H];
           injection H as _ <-; apply (SkipOut_failed_inv f d x q' F E)
       end.
Qed.

(** Once the reader has reported an error it is never called again, and
    the buffered value never changes: whatever is called afterwards. *)
Theorem reader_untouched_after_failure
  (fuel : nat) (ops : list Op) (p q : LP) (rs : list Ret) :
  HasParseError (r_ p) = true -> run fuel ops p = Some (rs, q) ->
  r_ q = r_ p /\ v_ q = v_ p.
Proof.
  revert p rs; induction ops as [|o ops IH]; intros p rs F H; cbn [run] in H.
  - injection H as _ <-; split; reflexivity.
  - destruct (call fuel o p) as [[res p']|] eqn:E; [|discriminate H].
    destruct (run fuel ops p') as [[rs' q']|] eqn:E'; [|discriminate H].
    injection H as _ <-.
    destruct (call_failed_reader fuel o p p' res F E) as [A B].
    rewrite <- A in F; destruct (IH p' rs' F E') as [C D].
    split; congruence.
Qed.

End Failures.

(** ** Dispatching on PeekType, and the cost of a call *)

Section Dispatch.
Context {R : Type} {ES : EventSource R}.
Local Abbreviation LP := (LookaheadParser R).

(** On a coherent parser PeekType tells which call may follow: the object
    and array tags are returned exactly where EnterObject and EnterArray
    proceed, the number, null and boolean tags exactly where GetDouble,
    GetNull and GetBool proceed, the string tag exactly on a string or a
    key, and [-1] exactly in [kInit], [kError] and at the end of a
    container. *)
Theorem PeekType_tells_the_call (p : LP) :
  coherent p ->
  (fst (PeekType p) = Type_to_int kObjectType <->
   precondition OpEnterObject p = true) /\
  (fst (PeekType p) = Type_to_int kArrayType <->
   precondition OpEnterArray p = true) /\
  (fst (PeekType p) = Type_to_int kNumberType <->
   precondition OpGetDouble p = true) /\
  (fst (PeekType p) = Type_to_int kNullType <->
   precondition OpGetNull p = true) /\
  (fst (PeekType p) = Type_to_int kTrueType \/
   fst (PeekType p) = Type_to_int kFalseType <->
   precondition OpGetBool p = true) /\
  (fst (PeekType p) = Type_to_int kTrueType <->
   precondition OpGetBool p = true /\ Value_GetBool (v_ p) = true) /\
  (fst (PeekType p) = Type_to_int kStringType <->
   precondition OpGetString p = true \/ st_ p = kHasKey) /\
  (fst (PeekType p) = -1 <->
   st_ p = kInit \/ st_ p = kError \/ st_ p = kExitingObject \/
   st_ p = kExitingArray).
Proof.
  intro C; rewrite PeekType_eq; cbn [fst precondition]; unfold coherent in C.
  destruct (st_ p) eqn:S; cbn [scalar_state].
  all: try match type of C with
           | exists _, _ => let x := fresh "x" in destruct C as [x C]
           end.
  all: try rewrite C.
  all: try match goal with b : bool |- _ => destruct b end.
  all: cbn; intuition (try discriminate; try congruence).
Qed.

(** One token of lookahead: a call other than a skip leaves the parser as
    it was, or sets [kError] and nothing else, or performs exactly one
    fetch. *)
Theorem one_fetch_per_call (fuel : nat) (o : Op) (p q : LP) (res : Ret) :
  is_skip o = false -> call fuel o p = Some (res, q) ->
  q = p \/ q = set_st kError p \/ q = ParseNext p.
Proof.
  intros K H; destruct o; try discriminate K; cbn [call] in H;
    unfold returning, EnterObject, EnterArray, NextObjectKey, NextArrayValue,
      GetInt, GetDouble, GetString, GetBool, GetNull, PeekValue, PeekType,
      IsValid in H;
    repeat match type of H with
           | context [if ?c then _ else _] => destruct c
           end;
    cbn [fst snd] in H; injection H as _ <-; auto.
Qed.

End Dispatch.

(** ** Skipping what is left of a container *)

Section Remaining.
Context {R : Type} {ES : EventSource R}.
Local Abbreviation LP := (LookaheadParser R).

Lemma remaining_skips (stop : Z -> bool) (c : Json) (k : nat) :
  stop 0 = true -> (forall d, 0 < d -> stop d = false) ->
  is_container c = true ->
  exists body closing,
    remaining c k = body ++ [closing] /\
    depth_change (token_state closing) = -1 /\ skips stop body.
Proof.
  intros S0 Sp C; destruct c as [ | | | |l|l]; try discriminate C.
  - exists (flat_map events (skipn k l)), (EvEndArray (Z.of_nat (List.length l))).
    split_ands; [reflexivity|reflexivity|apply skips_elements; assumption].
  - exists (member_events (skipn k l)), (EvEndObject (Z.of_nat (List.length l))).
    split_ands; [reflexivity|reflexivity|apply skips_members; assumption].
Qed.

(** SkipArray and SkipObject between the elements: let some elements (or
    members) of a container be read, the first token of what remains be
    buffered, and the reader deliver the rest up to the closing event.
    Then SkipArray and SkipObject, which are the same loop, return after
    one fetch per remaining event; if an event [nx] follows the container,
    it is the one buffered then. *)
Theorem skip_leaves_the_container
  (c : Json) (k : nat) (fuel : nat) (p : LP) (r' : R) :
  is_container c = true ->
  delivers (r_ p) (remaining c k) r' ->
  (List.length (remaining c k) <= fuel)%nat ->
  SkipArray fuel (ParseNext p) =
    Some (fetch_n (List.length (remaining c k)) (ParseNext p)) /\
  SkipObject fuel (ParseNext p) = SkipArray fuel (ParseNext p) /\
  fetches (fetch_n (List.length (remaining c k)) (ParseNext p)) =
    (List.length (remaining c k) + fetches (ParseNext p))%nat /\
  (forall nx r'', delivers r' [nx] r'' ->
     st_ (fetch_n (List.length (remaining c k)) (ParseNext p)) = token_state nx /\
     r_ (fetch_n (List.length (remaining c k)) (ParseNext p)) = r'').
Proof.
  intros C D F.
  destruct (remaining_skips (fun d => d <=? 0) c k eq_refl leb_stop_positive C)
    as [body [closing [E [Hc Sb]]]].
  rewrite E in *; rewrite length_app in *; cbn [List.length] in *.
  split_ands.
  - unfold SkipArray; rewrite SkipOut_skip_until.
    replace fuel with (List.length body + S (fuel - (List.length body + 1)))%nat
      at 1 by lia.
    rewrite (skip_until_rest _ eq_refl body closing _ p r' Hc Sb D).
    rewrite Nat.add_1_r; reflexivity.
  - reflexivity.
  - apply fetches_fetch_n.
  - intros nx r'' Dn.
    pose proof (delivers_end _ _ _ D) as De.
    rewrite length_app in De; cbn [List.length] in De.
    rewrite fetch_n_ParseNext.
    assert (Dn' : delivers (r_ (fetch_n (List.length body + 1) p)) [nx] r'')
      by (rewrite De; exact Dn).
    destruct (delivers_step _ nx [] r'' Dn') as [S [_ Dl]].
    split; [exact S|symmetry; exact Dl].
Qed.

End Remaining.

(** ** Reading a whole value *)

Section Whole.
Context {R : Type} {ES : EventSource R}.
Local Abbreviation LP := (LookaheadParser R).

Lemma token_state_valid (e : Event) : is_raw e = false -> token_state e <> kError.
Proof. destruct e; try discriminate; intros _; discriminate. Qed.

Lemma delivers_valid (es : list Event) (p : LP) (r' : R) :
  delivers (r_ p) es r' -> st_ p <> kError ->
  st_ (fetch_n (List.length es) p) <> kError.
Proof.
  revert p; induction es as [|e es IH]; intros p D V; [exact V|].
  cbn [List.length]; rewrite fetch_n_succ_r.
  destruct (delivers_step p e es r' D) as [S [_ D']].
  apply (IH _ D'); rewrite S; apply token_state_valid.
  destruct D as [_ [_ [Hraw _]]]; exact Hraw.
Qed.

(** After the events of a value the parser is valid exactly when the
    reader is. *)
Lemma valid_after_value (j : Json) (p : LP) (r' : R) :
  delivers (r_ p) (events j) r' ->
  fst (IsValid (fetch_n (List.length (events j)) (ParseNext p))) =
  negb (HasParseError r').
Proof.
  intro D; rewrite fetch_n_ParseNext.
  pose proof (delivers_end _ _ _ D) as E.
  assert (V : st_ (fetch_n (List.length (events j)) p) <> kError).
  { rewrite (events_first_rest j) in *; cbn [List.length].
    rewrite fetch_n_succ_r.
    destruct (delivers_step p _ _ r' D) as [S [_ D']].
    apply (delivers_valid _ _ r' D'); rewrite S; apply token_state_valid.
    destruct D as [_ [_ [Hraw _]]]; exact Hraw. }
  destruct (HasParseError r') eqn:F; rewrite <- E in F; cbn [negb].
  - apply IsValid_false; rewrite (ParseNext_failed _ F); reflexivity.
  - apply IsValid_eq, ParseNext_keeps_valid; assumption.
Qed.

Lemma keys_calls (l : list (string * Json)) :
  visit_to 1 (JObject l) =
    OpEnterObject :: flat_map (fun _ => [OpNextObjectKey; OpSkipValue]) l
      ++ [OpNextObjectKey] /\
  answers_to 1 (JObject l) =
    RetBool true :: flat_map (fun m => [RetStr (Some (fst m)); RetVoid]) l
      ++ [RetStr None].
Proof.
  cbn [visit_to answers_to]; split; do 2 f_equal;
    induction l as [|[k v] l IH]; cbn [flat_map fst app]; congruence.
Qed.

End Whole.

(** Recursive descent reads the document back.  Let the reader be about to
    deliver the events of a JSON value [j] and the fetch that buffers the
    first of them be done.  Then the descent over [j] (EnterObject and
    NextObjectKey, EnterArray and NextArrayValue, a getter per scalar)
    returns true for each container entered, each key and each scalar of
    [j] in document order, and the end-of-container answers; it leaves the
    parser that SkipValue leaves, one fetch per event; that parser is valid
    exactly when the reader has not failed.  The same holds from the
    constructor, for a document that is the value [j]. *)
Theorem visit_reads_the_value
  (R : Type) (ES : EventSource R) (j : Json) (fuel : nat)
  (p : LookaheadParser R) (r' : R) (fresh : R) :
  delivers (r_ p) (events j) r' ->
  run fuel (visit j) (ParseNext p) =
    Some (answers j, fetch_n (List.length (events j)) (ParseNext p)) /\
  SkipValue (List.length (events j)) (ParseNext p) =
    Some (fetch_n (List.length (events j)) (ParseNext p)) /\
  fst (IsValid (fetch_n (List.length (events j)) (ParseNext p))) =
    negb (HasParseError r') /\
  (forall r'', delivers (IterativeParseInit fresh) (events j) r'' ->
     run fuel (visit j) (LookaheadParser_new fresh) =
       Some (answers j,
             fetch_n (List.length (events j)) (LookaheadParser_new fresh)) /\
     fst (IsValid (fetch_n (List.length (events j)) (LookaheadParser_new fresh))) =
       negb (HasParseError r'')).
Proof.
  intro D; split_ands.
  - apply (reads_visit fuel j p r' D).
  - pose proof D as D'; rewrite (events_first_rest j) in D'.
    destruct (delivers_step p _ _ r' D') as [S [_ D1]].
    unfold SkipValue; rewrite SkipOut_skip_until.
    rewrite <- (Nat.add_0_r (List.length (events j))) at 1.
    apply (skip_until_value _ eq_refl leb_stop_positive j 0 (ParseNext p) r' S D1).
  - apply (valid_after_value j p r' D).
  - intros r'' D'; rewrite new_unfold; split.
    + apply (reads_visit fuel j
               (mkHandler VNull kInit (IterativeParseInit fresh) 0%nat) r'' D').
    + apply (valid_after_value j
               (mkHandler VNull kInit (IterativeParseInit fresh) 0%nat) r'' D').
Qed.

(** Descent to a depth, skipping below it.  Under the same hypothesis, and
    with the iterations the skips may need, the descent that reads [n]
    levels of [j] and calls SkipValue on every value below returns the keys
    and scalars of those levels and ends in the same parser.  At depth 1 on
    an object these are the calls that list its keys: EnterObject, then
    NextObjectKey and SkipValue per member, then NextObjectKey. *)
Theorem visit_to_reads_and_skips
  (R : Type) (ES : EventSource R) (n : nat) (j : Json) (fuel : nat)
  (p : LookaheadParser R) (r' : R) :
  delivers (r_ p) (events j) r' ->
  (List.length (events j) <= fuel)%nat ->
  run fuel (visit_to n j) (ParseNext p) =
    Some (answers_to n j, fetch_n (List.length (events j)) (ParseNext p)) /\
  (forall l,
     visit_to 1 (JObject l) =
       OpEnterObject :: flat_map (fun _ => [OpNextObjectKey; OpSkipValue]) l
         ++ [OpNextObjectKey] /\
     answers_to 1 (JObject l) =
       RetBool true :: flat_map (fun m => [RetStr (Some (fst m)); RetVoid]) l
         ++ [RetStr None]).
Proof.
  intros D F; split.
  - apply (reads_visit_to n fuel j F p r' D).
  - apply keys_calls.
Qed.

(** ** The token a failing fetch leaves behind *)

Section Stale.
Context {R : Type} {ES : EventSource R}.
Local Abbreviation LP := (LookaheadParser R).

Lemma call_advances (fuel : nat) (o : Op) (p : LP) :
  advances o = true -> precondition o p = true ->
  exists res, call fuel o p = Some (res, ParseNext p) /\
    forall q : LP, st_ q = st_ p -> v_ q = v_ p ->
      call fuel o q = Some (res, ParseNext q).
Proof.
  intros A P; destruct o; try discriminate A; cbn [precondition] in P;
    cbn [call]; unfold returning, EnterObject, EnterArray, NextObjectKey,
      GetInt, GetDouble, GetString, GetBool, GetNull.
  - rewrite P; eexists; split; [reflexivity|intros q -> _; rewrite P; reflexivity].
  - rewrite P; eexists; split; [reflexivity|intros q -> _; rewrite P; reflexivity].
  - destruct (state_eqb (st_ p) kHasKey) eqn:K.
    + eexists; split; [reflexivity|intros q -> ->; rewrite K; reflexivity].
    + cbn [orb] in P; rewrite P; eexists; split; [reflexivity|].
      intros q -> _; rewrite K, P; reflexivity.
  - apply andb_prop in P as [P1 P2]; rewrite P1, P2; eexists; split;
      [reflexivity|intros q -> ->; rewrite P1, P2; reflexivity].
  - rewrite P; eexists; split; [reflexivity|intros q -> ->; rewrite P; reflexivity].
  - rewrite P; eexists; split; [reflexivity|intros q -> ->; rewrite P; reflexivity].
  - rewrite P; eexists; split; [reflexivity|intros q -> ->; rewrite P; reflexivity].
  - rewrite P; eexists; split; [reflexivity|intros q -> _; rewrite P; reflexivity].
Qed.

(** A token is handed out twice when the reader fails right after it.  Let
    a call that fetches (EnterObject, EnterArray, NextObjectKey, a getter)
    be made within its precondition, and let the reader meet its error
    during that fetch, without a callback.  The call returns its result and
    leaves a valid parser; the same call made again returns the same result
    once more, and only then is the parser in [kError]. *)
Theorem stale_token_is_read_twice (fuel : nat) (o : Op) (p : LP) :
  advances o = true -> precondition o p = true ->
  HasParseError (r_ p) = false -> emitted (r_ p) = None ->
  HasParseError (after (r_ p)) = true ->
  st_ p <> kError ->
  exists res,
    run fuel [o; o] p =
      Some ([res; res], set_st kError (tick (ParseNext p))) /\
    call fuel o p = Some (res, ParseNext p) /\
    fst (IsValid (ParseNext p)) = true /\
    v_ (ParseNext p) = v_ p.
Proof.
  intros A P E N F V.
  destruct (call_advances fuel o p A P) as [res [C1 C2]].
  pose proof (ParseNext_silent p E N) as Q.
  exists res; split_ands.
  - cbn [run]; rewrite C1, (C2 (ParseNext p)) by (rewrite Q; reflexivity).
    rewrite (ParseNext_failed (ParseNext p)) by (rewrite Q; exact F).
    reflexivity.
  - exact C1.
  - apply IsValid_eq; rewrite Q; exact V.
  - rewrite Q; reflexivity.
Qed.

End Stale.

(** * The further properties, run *)

(** The descent over [sample], from the constructor. *)
Lemma visit_reads_the_value_witness :
  run 0 (visit sample) parser_sample =
    Some (answers sample, fetch_n (List.length (events sample)) parser_sample) /\
  fst (IsValid (fetch_n (List.length (events sample)) parser_sample)) = true.
Proof.
  assert (D : delivers (r_ (handler_of (doc_of sample))) (events sample)
                (mkScript [] false))
    by (vm_compute; repeat split).
  destruct (visit_reads_the_value Script Script_EventSource sample 0
              (handler_of (doc_of sample)) (mkScript [] false) (doc_of sample) D)
    as [A [_ [B _]]].
  split; [exact A|exact B].
Defined.

(** The keys of [sample], each value skipped. *)
Lemma visit_to_reads_and_skips_witness :
  run 16 (visit_to 1 sample) parser_sample =
  Some ([RetBool true; RetStr (Some "name"%string); RetVoid;
         RetStr (Some "shape"%string); RetVoid; RetStr (Some "meta"%string);
         RetVoid; RetStr None],
        fetch_n 16 parser_sample).
Proof.
  assert (D : delivers (r_ (handler_of (doc_of sample))) (events sample)
                (mkScript [] false))
    by (vm_compute; repeat split).
  exact (proj1 (visit_to_reads_and_skips Script Script_EventSource 1 sample 16
                  (handler_of (doc_of sample)) (mkScript [] false) D
                  (Nat.le_refl 16 : (List.length (events sample) <= 16)%nat))).
Defined.

(** The scenario after EnterObject and NextObjectKey: the number 1 is
    buffered. *)
Lemma coherent_reachable_witness :
  coherent (after_ops [OpEnterObject; OpNextObjectKey] parser_scenario).
Proof.
  apply (@coherent_reachable Script Script_EventSource 16
           [OpEnterObject; OpNextObjectKey] doc_scenario
           (after_ops [OpEnterObject; OpNextObjectKey] parser_scenario)
           [RetBool true; RetStr (Some "a"%string)]).
  reflexivity.
Defined.

(** On [{"a":}] the second NextObjectKey ends in [kError]: the reader had
    failed. *)
Lemma invalid_only_by_misuse_or_reader_error_witness :
  st_ parser_after_key = kError \/
  precondition OpNextObjectKey parser_after_key = false \/
  HasParseError (r_ (ParseNext parser_after_key)) = true.
Proof.
  exact (@invalid_only_by_misuse_or_reader_error Script Script_EventSource 0
           OpNextObjectKey parser_after_key (ParseNext parser_after_key)
           (RetStr (Some "a"%string)) eq_refl eq_refl).
Defined.

(** A skip after the error of [{"a":}]. *)
Lemma skip_returns_on_failed_reader_witness :
  exists q,
    SkipOut 2 1 parser_after_key = Some q /\
    st_ q = kError /\ r_ q = r_ parser_after_key /\
    v_ q = v_ parser_after_key /\
    (fetches q <= S (fetches parser_after_key))%nat.
Proof.
  exact (@skip_returns_on_failed_reader Script Script_EventSource 0 1
           parser_after_key eq_refl).
Defined.

(** SkipArray on the document [42], once the number is buffered: a
    thousand iterations do not end it. *)
Lemma skip_inside_never_returns_at_end_witness :
  SkipArray 1000 parser_42 = None.
Proof.
  apply (@skip_inside_never_returns_at_end Script Script_EventSource 1000 1
           parser_42).
  - split; reflexivity.
  - reflexivity.
  - reflexivity.
  - discriminate.
Defined.

(** On [42] PeekType answers the number tag and GetDouble may proceed. *)
Lemma PeekType_tells_the_call_witness :
  fst (PeekType parser_42) = Type_to_int kNumberType /\
  precondition OpGetDouble parser_42 = true.
Proof.
  assert (C : coherent parser_42) by (exists (NUint 42); reflexivity).
  destruct (PeekType_tells_the_call parser_42 C)
    as [_ [_ [N _]]].
  split; [reflexivity|apply N; reflexivity].
Defined.

(** GetInt on [42]: the third case, one fetch. *)
Lemma one_fetch_per_call_witness :
  ParseNext parser_42 = parser_42 \/
  ParseNext parser_42 = set_st kError parser_42 \/
  ParseNext parser_42 = ParseNext parser_42.
Proof.
  exact (@one_fetch_per_call Script Script_EventSource 0 OpGetInt parser_42
           (ParseNext parser_42) (RetInt 42) eq_refl eq_refl).
Defined.

(** Three calls after the error of [{"a":}]. *)
Lemma reader_untouched_after_failure_witness :
  r_ (ParseNext parser_after_key) = r_ parser_after_key /\
  v_ (ParseNext parser_after_key) = v_ parser_after_key.
Proof.
  exact (@reader_untouched_after_failure Script Script_EventSource 16
           [OpNextObjectKey; OpPeekValue; OpSkipValue] parser_after_key
           (ParseNext parser_after_key)
           [RetStr (Some "a"%string); RetValue None; RetVoid] eq_refl eq_refl).
Defined.

(** In [[[1,2,3],"x"]], after the element 1 is read, SkipArray skips 2,
    3 and the closing bracket: the string "x" is buffered. *)
Lemma skip_leaves_the_container_witness :
  fst (GetInt parser_in_array) = 1 /\
  SkipArray 3 (snd (GetInt parser_in_array)) =
    Some (fetch_n 3 (snd (GetInt parser_in_array))) /\
  st_ (fetch_n 3 (snd (GetInt parser_in_array))) = kHasString /\
  v_ (fetch_n 3 (snd (GetInt parser_in_array))) = VString "x".
Proof.
  assert (D : delivers (r_ parser_in_array) (remaining inner 1)
                (mkScript [Emit (EvString "x" false); Emit (EvEndArray 2)] false))
    by (vm_compute; repeat split).
  destruct (@skip_leaves_the_container Script Script_EventSource inner 1 3
              parser_in_array _ eq_refl D (Nat.le_refl 3))
    as [A [_ [_ B]]].
  split_ands; [reflexivity|exact A| |reflexivity].
  apply (B (EvString "x" false) (mkScript [Emit (EvEndArray 2)] false)).
  vm_compute; repeat split.
Defined.

(** On [{"a":}] NextObjectKey returns the key "a" twice. *)
Lemma stale_token_is_read_twice_witness :
  exists res,
    run 0 [OpNextObjectKey; OpNextObjectKey] parser_at_key =
      Some ([res; res], set_st kError (tick (ParseNext parser_at_key))) /\
    call 0 OpNextObjectKey parser_at_key = Some (res, ParseNext parser_at_key) /\
    fst (IsValid (ParseNext parser_at_key)) = true /\
    v_ (ParseNext parser_at_key) = v_ parser_at_key.
Proof.
  apply (@stale_token_is_read_twice Script Script_EventSource 0 OpNextObjectKey
           parser_at_key); try reflexivity.
  discriminate.
Defined.
